(** * video_transcript: the server actions of [src/app/actions.ts]

    A shallow embedding of the subtitle pipeline (URL parsing, segment
    normalisation, chunking, translation with retries, the cached
    orchestrator) together with the properties the specification states
    about it.

    Conventions.  JavaScript strings are modelled as [string], a sequence of
    bytes holding the UTF-8 encoding of the text.  Every character the source
    tests for explicitly is ASCII, and a non-ASCII character is encoded by
    bytes above 127 only, so character classes and literal matches behave on
    the bytes as they do on UTF-16 code units.  Integers that the source
    obtains from [parseInt] are modelled as [Z] (exact below 2^53).
    [console.log] and [console.error] have no effect on any value and are
    left out. *)

From Stdlib Require Import ZArith String Ascii List Lia QArith Qabs.
From stdpp Require Import gmap strings list.
From Equations Require Import Equations.

(** ** Strings *)

Module Str.

Fixpoint stripPrefix (p s : string) : option string :=
  match p, s with
  | EmptyString, _ => Some s
  | String a p', String b s' => if Ascii.eqb a b then stripPrefix p' s' else None
  | String _ _, EmptyString => None
  end.

Fixpoint all (f : ascii -> bool) (s : string) : bool :=
  match s with
  | EmptyString => true
  | String c s' => f c && all f s'
  end.

Definition isEmpty (s : string) : bool :=
  match s with EmptyString => true | _ => false end.

Definition code (c : ascii) : nat := nat_of_ascii c.

Definition between (lo hi : nat) (c : ascii) : bool :=
  (lo <=? code c) && (code c <=? hi).

Definition isDigit (c : ascii) : bool := between 48 57 c.
Definition isUpper (c : ascii) : bool := between 65 90 c.
Definition isLower (c : ascii) : bool := between 97 122 c.

End Str.

(** ** extractVideoId *)

(** The character class [[^&\n?#]] of the first pattern, complemented. *)
Definition isIdTerminator (c : ascii) : bool :=
  Ascii.eqb c "&" || Ascii.eqb c "010" || Ascii.eqb c "?" || Ascii.eqb c "#".

(** The greedy run [[^&\n?#]*] at the head of [s]. *)
Fixpoint takeIdChars (s : string) : string :=
  match s with
  | EmptyString => EmptyString
  | String c s' => if isIdTerminator c then EmptyString else String c (takeIdChars s')
  end.

(** The alternatives of the non-capturing group, in the order of the regex. *)
Definition urlMarkers : list string :=
  [ "youtube.com/watch?v="; "youtu.be/"; "youtube.com/embed/" ].

(** The first pattern tried at the head of [s]: an alternative of the group
    followed by [([^&\n?#]+)].  The capture is the maximal run; when the run
    is empty the alternative fails and the next one is tried. *)
Fixpoint matchMarkersAt (ms : list string) (s : string) : option string :=
  match ms with
  | [] => None
  | m :: ms' =>
      match Str.stripPrefix m s with
      | Some rest =>
          if Str.isEmpty (takeIdChars rest) then matchMarkersAt ms' s
          else Some (takeIdChars rest)
      | None => matchMarkersAt ms' s
      end
  end.

(** [url.match(patterns[0])]: the regex is not anchored, so the match is the
    one at the leftmost position where it succeeds.  The result is capture
    group 1. *)
Fixpoint matchUrlPattern (s : string) : option string :=
  match matchMarkersAt urlMarkers s with
  | Some id => Some id
  | None =>
      match s with
      | EmptyString => None
      | String _ s' => matchUrlPattern s'
      end
  end.

(** The class [[a-zA-Z0-9_-]]. *)
Definition isBareIdChar (c : ascii) : bool :=
  Str.isLower c || Str.isUpper c || Str.isDigit c || Ascii.eqb c "_" || Ascii.eqb c "-".

(** [url.match(patterns[1])], the anchored pattern [^([a-zA-Z0-9_-]{11})$]. *)
Definition matchBarePattern (s : string) : option string :=
  if (String.length s =? 11) && Str.all isBareIdChar s then Some s else None.

Definition patterns : list (string -> option string) :=
  [ matchUrlPattern; matchBarePattern ].

(** The [for (const pattern of patterns)] loop: the first pattern that
    matches decides; [None] is the [null] returned after the loop. *)
Fixpoint firstMatch (ps : list (string -> option string)) (url : string) : option string :=
  match ps with
  | [] => None
  | pattern :: ps' =>
      match pattern url with
      | Some m => Some m
      | None => firstMatch ps' url
      end
  end.

Definition extractVideoId (url : string) : option string :=
  firstMatch patterns url.

(** ** JavaScript values *)

#[local] Set Warnings "-register-all".


(** The values [JSON.parse] can produce, and [undefined].  A number carries
    the exact rational its literal denotes; JavaScript holds the nearest
    double. *)
Inductive JsValue : Type :=
| JsUndefined
| JsNull
| JsBool (b : bool)
| JsNumber (q : Q)
| JsString (s : string)
| JsArray (elements : list JsValue)
| JsObject (props : list (string * JsValue)).

(** The nearest double of [q] is zero exactly when [|q| <= 2^-1075]. *)
Definition roundsToZero (q : Q) : bool :=
  Qle_bool (Qabs q) (1 # (2 ^ 1075)).

(** ToBoolean, the test behind [||] and [!]. *)
Definition toBoolean (v : JsValue) : bool :=
  match v with
  | JsUndefined | JsNull => false
  | JsBool b => b
  | JsNumber q => negb (roundsToZero q)
  | JsString s => negb (Str.isEmpty s)
  | JsArray _ | JsObject _ => true
  end.

(** [a || b] *)
Definition jsOr (a b : JsValue) : JsValue :=
  if toBoolean a then a else b.

(** Own-property lookup in a parsed object; a missing key reads as
    [undefined]. *)
Fixpoint lookupProp (key : string) (props : list (string * JsValue)) : JsValue :=
  match props with
  | [] => JsUndefined
  | (k, v) :: props' => if String.eqb k key then v else lookupProp key props'
  end.

(** ** Whitespace and parseInt *)

Module Ws.

(** WhiteSpace and LineTerminator of one, two and three bytes (UTF-8). *)
Definition ws1 (a : ascii) : bool :=
  Str.between 9 13 a || (Str.code a =? 32).

Definition ws2 (a b : ascii) : bool :=
  (Str.code a =? 194) && (Str.code b =? 160).

Definition ws3 (a b c : ascii) : bool :=
  let x := Str.code a in
  let y := Str.code b in
  let z := Str.code c in
  ((x =? 239) && (y =? 187) && (z =? 191))
  || ((x =? 225) && (y =? 154) && (z =? 128))
  || ((x =? 226) && (y =? 128)
      && (Str.between 128 138 c || (z =? 168) || (z =? 169) || (z =? 175)))
  || ((x =? 226) && (y =? 129) && (z =? 159))
  || ((x =? 227) && (y =? 128) && (z =? 128)).

Fixpoint trimStart (s : string) : string :=
  match s with
  | String a r1 =>
      if ws1 a then trimStart r1
      else
        match r1 with
        | String b r2 =>
            if ws2 a b then trimStart r2
            else
              match r2 with
              | String c r3 => if ws3 a b c then trimStart r3 else s
              | EmptyString => s
              end
        | EmptyString => s
        end
  | EmptyString => s
  end.

Fixpoint trimEnd (s : string) : string :=
  match s with
  | EmptyString => EmptyString
  | String c s' =>
      if Str.isEmpty (trimStart s) then EmptyString else String c (trimEnd s')
  end.

(** [String.prototype.trim] *)
Definition trim (s : string) : string := trimEnd (trimStart s).

End Ws.

(** The value of [c] as a digit of the given radix (10 or 16). *)
Definition digitValue (radix : Z) (c : ascii) : option Z :=
  let x := Z.of_nat (Str.code c) in
  if Str.isDigit c then Some (x - 48)%Z
  else if (radix =? 16)%Z && Str.between 97 102 c then Some (x - 87)%Z
  else if (radix =? 16)%Z && Str.between 65 70 c then Some (x - 55)%Z
  else None.

(** The longest prefix of digits, read as an integer; [acc] is [None] until
    a digit has been seen. *)
Fixpoint parseDigits (radix : Z) (acc : option Z) (s : string) : option Z :=
  match s with
  | EmptyString => acc
  | String c s' =>
      match digitValue radix c with
      | Some d => parseDigits radix (Some (default 0%Z acc * radix + d)%Z) s'
      | None => acc
      end
  end.

(** [parseInt] on a string, radix omitted: leading whitespace, an optional
    sign, an optional [0x]/[0X] prefix, then digits.  [None] is [NaN].

    The result is the integer the digits denote.  The code holds the double
    nearest to it, which is that integer as long as its magnitude is at most
    [2^53 - 1] ([isSafeInteger] below); what is stated of the value of a
    parsed time assumes this. *)
Definition parseIntString (s : string) : option Z :=
  let s1 := Ws.trimStart s in
  let '(negative, s2) :=
    match s1 with
    | String "-" r => (true, r)
    | String "+" r => (false, r)
    | _ => (false, s1)
    end in
  let '(radix, s3) :=
    match s2 with
    | String "0" (String "x" r) => (16%Z, r)
    | String "0" (String "X" r) => (16%Z, r)
    | _ => (10%Z, s2)
    end in
  match parseDigits radix None s3 with
  | Some n => Some (if negative then (- n)%Z else n)
  | None => None
  end.

(** [parseInt(x)] where [x] is a string or [undefined]; [undefined] is
    first converted to the string ["undefined"]. *)
Definition parseInt (x : option string) : option Z :=
  parseIntString (default "undefined" x).

(** [n || 0] on a number: [NaN] and zero are falsy. *)
Definition orZero (n : option Z) : Z := default 0%Z n.

(** ** Subtitle blocks and raw caption segments *)

(** [SubtitleBlock].  The type of [text] is a parameter: the blocks built by
    the normaliser carry strings, while a block returned by the translator
    carries whatever truthy value the model put under ["text"]. *)
Record Block (T : Type) : Type := mkBlock {
  text : T;
  offset : Z;
  duration : Z;
}.
Arguments mkBlock {T} _ _ _.
Arguments text {T} _.
Arguments offset {T} _.
Arguments duration {T} _.

Abbreviation SubtitleBlock := (Block string).
Abbreviation TranslatedBlock := (Block JsValue).

(** A property of a caption-track node: the key may be missing from the
    object ([Missing]), or present with the value [undefined] ([Has None])
    or with a proper value. *)
Inductive Field (A : Type) : Type :=
| Missing
| Has (v : option A).
Arguments Missing {A}.
Arguments Has {A} _.

(** [key in object] *)
Definition hasKey {A} (f : Field A) : bool :=
  match f with Missing => false | Has _ => true end.

(** [object.key] *)
Definition fieldValue {A} (f : Field A) : option A :=
  match f with Missing => None | Has v => v end.

(** The [Text] object of youtubei.js, whose [text] is [string | undefined]. *)
Record Snippet : Type := mkSnippet { snippet_text : option string }.

Record RawSegment : Type := mkRawSegment {
  start_ms : Field string;
  end_ms : Field string;
  snippet : Field Snippet;
}.

(** [segment.snippet?.text] *)
Definition snippetText (segment : RawSegment) : option string :=
  match fieldValue (snippet segment) with
  | Some sn => snippet_text sn
  | None => None
  end.

(** The predicate passed to [segments.filter]. *)
Definition keepSegment (segment : RawSegment) : bool :=
  hasKey (start_ms segment) && hasKey (snippet segment)
  && bool_decide (snippetText segment <> None).

(** The function passed to [.map]; it only runs on segments the filter kept,
    whose snippet text is defined.  The difference is the one of the
    integers; the code subtracts doubles, with the same result as long as
    both times and their difference are safe integers ([safeTimes]). *)
Definition toSubtitleBlock (segment : RawSegment) : SubtitleBlock :=
  {| text := default "" (snippetText segment);
     offset := orZero (parseInt (fieldValue (start_ms segment)));
     duration := orZero (parseInt (fieldValue (end_ms segment)))
                 - orZero (parseInt (fieldValue (start_ms segment))) |}.

Definition normalizeSegments (segments : list RawSegment) : list SubtitleBlock :=
  map toSubtitleBlock (List.filter keepSegment segments).

(** ** Cleaning the model output *)

(** Case-insensitive (ASCII) prefix test for a lower-case pattern [p]; the
    [i] flag of a non-unicode regex folds no non-ASCII character onto an
    ASCII letter. *)
Definition toLower (c : ascii) : ascii :=
  if Str.isUpper c then ascii_of_nat (Str.code c + 32) else c.

Fixpoint stripPrefixCI (p s : string) : option string :=
  match p, s with
  | EmptyString, _ => Some s
  | String a p', String b s' =>
      if Ascii.eqb a (toLower b) then stripPrefixCI p' s' else None
  | String _ _, EmptyString => None
  end.

(** Length of the optional newline [\n?] at the head of [s]. *)
Definition optionalNewline (s : string) : nat :=
  match s with
  | String "010" _ => 1
  | _ => 0
  end.

(** Length of the match of [/```json\n?/i] at the head of [s], if any. *)
Definition jsonFenceAt (s : string) : option nat :=
  match stripPrefixCI "```json" s with
  | Some rest => Some (7 + optionalNewline rest)
  | None => None
  end.

(** Length of the match of [/```\n?/] at the head of [s], if any. *)
Definition fenceAt (s : string) : option nat :=
  match Str.stripPrefix "```" s with
  | Some rest => Some (3 + optionalNewline rest)
  | None => None
  end.

(** [s.replace(re, '')] for a global regex whose match at a position, when
    there is one, has the length [matchAt] gives: matches are removed from
    left to right without overlap.  [skip] counts the characters of the
    current match that are still to be dropped. *)
Fixpoint removeMatches (matchAt : string -> option nat) (skip : nat) (s : string) : string :=
  match s with
  | EmptyString => EmptyString
  | String c s' =>
      match skip with
      | S k => removeMatches matchAt k s'
      | O =>
          match matchAt s with
          | Some (S k) => removeMatches matchAt k s'
          | _ => String c (removeMatches matchAt 0 s')
          end
      end
  end.

(** The longest prefix of [s] that ends in a closing bracket. *)
Fixpoint uptoLastBracket (s : string) : option string :=
  match s with
  | EmptyString => None
  | String c s' =>
      match uptoLastBracket s' with
      | Some t => Some (String c t)
      | None => if Ascii.eqb c "]" then Some (String c EmptyString) else None
      end
  end.

(** [s.match(/\[[\s\S]*\]/)]: from the leftmost opening bracket that has a
    closing bracket after it, greedily up to the last closing bracket. *)
Fixpoint matchJsonArray (s : string) : option string :=
  match s with
  | EmptyString => None
  | String c s' =>
      if Ascii.eqb c "[" then
        match uptoLastBracket s' with
        | Some t => Some (String c t)
        | None => matchJsonArray s'
        end
      else matchJsonArray s'
  end.

(** The text handed to [JSON.parse]. *)
Definition cleanResponse (text : string) : string :=
  let cleanedText :=
    Ws.trim (removeMatches fenceAt 0 (removeMatches jsonFenceAt 0 text)) in
  match matchJsonArray cleanedText with
  | Some jsonMatch => jsonMatch
  | None => cleanedText
  end.

(** ** The world around the pipeline *)

(** What a [throw] carries: an [Error] object with its message, or any
    other value ([error instanceof Error] is false). *)
Inductive Thrown : Type :=
| ErrorObject (message : string)
| NotAnError.

(** The caption source (Innertube [create], [getInfo], [getTranscript]): it
    rejects, or yields a structure whose
    [transcript?.content?.body?.initial_segments] is nullish ([None]) or an
    array of nodes. *)
Inductive CaptionReply : Type :=
| CaptionThrows (e : Thrown)
| CaptionInfo (initial_segments : option (list RawSegment)).

(** The translation model ([generateContent], [response.text()]): it
    rejects, or yields free-form text. *)
Inductive ModelReply : Type :=
| ModelThrows (e : Thrown)
| ModelText (text : string).

Inductive Event : Type :=
| EvFetchCaptions (videoId : string)
| EvModelCall (chunk : list SubtitleBlock)
| EvSleep (ms : N).

Record CacheEntry : Type := mkCacheEntry {
  insertedAt : N;
  cached : list TranslatedBlock;
}.

(** The state a request runs in.  The two collaborators are oracles indexed
    by the number of calls made so far; [clock] is in milliseconds; [trace]
    lists the outbound calls and delays in the order they happen, the newest
    last. *)
Record World : Type := mkWorld {
  captionSource : nat -> string -> CaptionReply;
  fetches : nat;
  modelReplies : nat -> ModelReply;
  modelCalls : nat;
  clock : N;
  cache : gmap string CacheEntry;
  trace : list Event;
}.

(** How an async function ends: its promise resolves, it rejects, or the
    function never returns. *)
Inductive Completion (A : Type) : Type :=
| Returned (a : A)
| Threw (e : Thrown)
| Diverged.
Arguments Returned {A} _.
Arguments Threw {A} _.
Arguments Diverged {A}.

Definition M (A : Type) : Type := World -> Completion A * World.

Definition ret {A} (a : A) : M A := fun w => (Returned a, w).

Definition bind {A B} (c : M A) (k : A -> M B) : M B :=
  fun w =>
    match c w with
    | (Returned a, w') => k a w'
    | (Threw e, w') => (Threw e, w')
    | (Diverged, w') => (Diverged, w')
    end.

Definition throw {A} (e : Thrown) : M A := fun w => (Threw e, w).

Definition diverge {A} : M A := fun w => (Diverged, w).

(** [try { c } catch (error) { handler error }] *)
Definition tryCatch {A} (c : M A) (handler : Thrown -> M A) : M A :=
  fun w =>
    match c w with
    | (Threw e, w') => handler e w'
    | r => r
    end.

Declare Scope pipeline_scope.
Delimit Scope pipeline_scope with pipeline.
Notation "x <- c ;; k" := (bind c (fun x => k))
  (at level 100, c at next level, right associativity) : pipeline_scope.
Notation "c ;; k" := (bind c (fun _ => k))
  (at level 100, right associativity) : pipeline_scope.
Local Open Scope pipeline_scope.

(** The world once a delay of [ms] milliseconds has passed. *)
Definition afterSleep (ms : N) (w : World) : World :=
  mkWorld (captionSource w) (fetches w) (modelReplies w) (modelCalls w)
          (clock w + ms)%N (cache w) (trace w ++ [EvSleep ms]).

(** The world once the caption source has been asked about [videoId]. *)
Definition afterFetch (videoId : string) (w : World) : World :=
  mkWorld (captionSource w) (S (fetches w)) (modelReplies w) (modelCalls w)
          (clock w) (cache w) (trace w ++ [EvFetchCaptions videoId]).

(** The world once the model has been sent the prompt built from [chunk]. *)
Definition afterModelCall (chunk : list SubtitleBlock) (w : World) : World :=
  mkWorld (captionSource w) (fetches w) (modelReplies w) (S (modelCalls w))
          (clock w) (cache w) (trace w ++ [EvModelCall chunk]).

(** [await new Promise(r => setTimeout(r, ms))] *)
Definition sleep (ms : N) : M unit :=
  fun w => (Returned tt, afterSleep ms w).

(** [Innertube.create()], [getInfo(videoId)], [getTranscript()] and the
    optional chain down to [initial_segments]. *)
Definition fetchInitialSegments (videoId : string) : M (option (list RawSegment)) :=
  fun w =>
    (match captionSource w (fetches w) videoId with
     | CaptionThrows e => Threw e
     | CaptionInfo segments => Returned segments
     end,
     afterFetch videoId w).

(** [model.generateContent(prompt)], [result.response], [response.text()];
    the prompt is determined by the chunk. *)
Definition generateContent (chunk : list SubtitleBlock) : M string :=
  fun w =>
    (match modelReplies w (modelCalls w) with
     | ModelThrows e => Threw e
     | ModelText text => Returned text
     end,
     afterModelCall chunk w).

(** ** The result cache *)

(** The world once [data] has been stored under [key], stamped with the
    time of the insertion. *)
Definition afterCacheSet (key : string) (data : list TranslatedBlock) (w : World) : World :=
  mkWorld (captionSource w) (fetches w) (modelReplies w) (modelCalls w)
          (clock w) (<[key := mkCacheEntry (clock w) data]> (cache w)) (trace w).

Definition cacheSet (key : string) (data : list TranslatedBlock) : M unit :=
  fun w => (Returned tt, afterCacheSet key data w).

(** An entry is fresh while less than the time-to-live (in seconds) has
    passed since its insertion. *)
Definition isFresh (ttl_s : N) (now : N) (entry : CacheEntry) : bool :=
  (now - insertedAt entry <? ttl_s * 1000)%N.

Definition cacheGet (ttl_s : N) (key : string) : M (option (list TranslatedBlock)) :=
  fun w =>
    match cache w !! key with
    | Some entry =>
        if isFresh ttl_s (clock w) entry then (Returned (Some (cached entry)), w)
        else (Returned None, w)
    | None => (Returned None, w)
    end.

(** Modelled from the spec: [unstable_cache] of [next/cache], which is not
    under src/.  The specification gives the result cache the contract
    [get(key) -> Timeline | miss], [set(key, Timeline)], with entries that
    expire a fixed time after their insertion, the expiry being checked at
    [get]; on a miss the wrapped function runs and its result is stored
    under the key, and a rejection stores nothing. *)
Definition unstable_cache (cb : string -> M (list TranslatedBlock)) (ttl_s : N)
  : string -> M (list TranslatedBlock) :=
  fun key =>
    hit <- cacheGet ttl_s key ;;
    match hit with
    | Some data => ret data
    | None =>
        data <- cb key ;;
        cacheSet key data ;;
        ret data
    end.

(** ** translateChunk *)

(** What [JSON.parse] does with a text: a value, or a [SyntaxError]. *)
Inductive ParseResult : Type :=
| Parsed (v : JsValue)
| SyntaxError (message : string).

Definition MAX_RETRIES : nat := 3.

Definition failureMarker : string := "[Lỗi dịch] ".

(** [translated?.text] where [translated] is [parsed[idx]]: [undefined] when
    the index is out of range or the element is [null]; only an object can
    have a ["text"] property. *)
Definition translatedText (translated : option JsValue) : JsValue :=
  match translated with
  | Some (JsObject props) => lookupProp "text" props
  | _ => JsUndefined
  end.

(** The callback of the [chunk.map] of the success path. *)
Definition reconcileItem (parsed : list JsValue) (idx : nat) (orig : SubtitleBlock)
  : TranslatedBlock :=
  {| text := jsOr (translatedText (parsed !! idx)) (JsString (text orig));
     offset := offset orig;
     duration := duration orig |}.

(** The callback of the [chunk.map] of the fallback path. *)
Definition markFailed (item : SubtitleBlock) : TranslatedBlock :=
  {| text := JsString (failureMarker +:+ text item);
     offset := offset item;
     duration := duration item |}.

(** [array.slice(i, j)] for [i <= j]. *)
Definition slice {A} (i j : nat) (l : list A) : list A :=
  take (j - i) (drop i l).

Definition chunkSize : nat := 50.

(** [revalidate: 86400], in seconds. *)
Definition revalidate : N := 86400.

(** [{ success: true, data }] or [{ success: false, error }]. *)
Inductive ProcessResult : Type :=
| Success (data : list TranslatedBlock)
| Failure (error : string).

(** [error instanceof Error ? error.message : "An unknown error occurred"] *)
Definition errorMessage (error : Thrown) : string :=
  match error with
  | ErrorObject message => message
  | NotAnError => "An unknown error occurred"
  end.

(** ** A reference JSON.parse *)

(** An executable reading of the JSON grammar, used to run the pipeline on
    concrete model outputs.  The properties of the pipeline below are
    stated for an arbitrary [JSON.parse] and do not depend on it. *)
Module JSON.

Definition isWs (c : ascii) : bool :=
  let x := Str.code c in (x =? 32) || (x =? 9) || (x =? 10) || (x =? 13).

Fixpoint skipWs (s : string) : string :=
  match s with
  | String c r => if isWs c then skipWs r else s
  | EmptyString => s
  end.

Definition byte (n : N) : ascii := ascii_of_N n.

(** The UTF-8 encoding of a code point. *)
Definition utf8 (cp : N) : string :=
  (if cp <? 128 then String (byte cp) EmptyString
   else if cp <? 2048 then
     String (byte (192 + cp / 64)) (String (byte (128 + cp mod 64)) EmptyString)
   else if cp <? 65536 then
     String (byte (224 + cp / 4096))
       (String (byte (128 + (cp / 64) mod 64))
          (String (byte (128 + cp mod 64)) EmptyString))
   else
     String (byte (240 + cp / 262144))
       (String (byte (128 + (cp / 4096) mod 64))
          (String (byte (128 + (cp / 64) mod 64))
             (String (byte (128 + cp mod 64)) EmptyString))))%N.

Definition hexDigit (c : ascii) : option N :=
  option_map Z.to_N (digitValue 16 c).

(** The four hex digits of a [\u] escape. *)
Definition hex4 (s : string) : option (N * string) :=
  match s with
  | String a (String b (String c (String d r))) =>
      match hexDigit a, hexDigit b, hexDigit c, hexDigit d with
      | Some x, Some y, Some z, Some t =>
          Some ((((x * 16 + y) * 16 + z) * 16 + t)%N, r)
      | _, _, _, _ => None
      end
  | _ => None
  end.

Definition isHighSurrogate (u : N) : bool := ((55296 <=? u) && (u <=? 56319))%N.
Definition isLowSurrogate (u : N) : bool := ((56320 <=? u) && (u <=? 57343))%N.

(** A low surrogate escape at the head of [s]. *)
Definition lowSurrogate (s : string) : option (N * string) :=
  match s with
  | String bs (String u r) =>
      if (Str.code bs =? 92) && (Str.code u =? 117) then
        match hex4 r with
        | Some (lo, r') => if isLowSurrogate lo then Some (lo, r') else None
        | None => None
        end
      else None
  | _ => None
  end.

Definition simpleEscape (e : ascii) : option ascii :=
  let x := Str.code e in
  if (x =? 34) || (x =? 92) || (x =? 47) then Some e
  else if x =? 98 then Some (byte 8)
  else if x =? 102 then Some (byte 12)
  else if x =? 110 then Some (byte 10)
  else if x =? 114 then Some (byte 13)
  else if x =? 116 then Some (byte 9)
  else None.

Definition prepend (t : string) (r : option (string * string)) : option (string * string) :=
  match r with
  | Some (body, rest) => Some (t +:+ body, rest)
  | None => None
  end.

(** A string literal after its opening quote: the decoded characters and
    the input after the closing quote. *)
Fixpoint stringBody (fuel : nat) (s : string) : option (string * string) :=
  match fuel with
  | O => None
  | S f =>
      match s with
      | EmptyString => None
      | String c r =>
          let x := Str.code c in
          if x =? 34 then Some (EmptyString, r)
          else if x <? 32 then None
          else if x =? 92 then
            match r with
            | EmptyString => None
            | String e r' =>
                match simpleEscape e with
                | Some ch => prepend (String ch EmptyString) (stringBody f r')
                | None =>
                    if Str.code e =? 117 then
                      match hex4 r' with
                      | Some (u, r'') =>
                          match (if isHighSurrogate u then lowSurrogate r'' else None) with
                          | Some (lo, r3) =>
                              prepend (utf8 (65536 + (u - 55296) * 1024 + (lo - 56320))%N)
                                      (stringBody f r3)
                          | None => prepend (utf8 u) (stringBody f r'')
                          end
                      | None => None
                      end
                    else None
                end
            end
          else prepend (String c EmptyString) (stringBody f r)
      end
  end.

(** The run of decimal digits at the head of [s]: its value continuing
    [acc], how many digits it has, and the rest of the input. *)
Fixpoint digits (acc : Z) (count : nat) (s : string) : Z * nat * string :=
  match s with
  | String c r =>
      if Str.isDigit c
      then digits (acc * 10 + (Z.of_nat (Str.code c) - 48))%Z (S count) r
      else (acc, count, s)
  | EmptyString => (acc, count, s)
  end.

Definition pow10 (e : Z) : Q :=
  if (0 <=? e)%Z then inject_Z (10 ^ e) else 1 # Z.to_pos (10 ^ (- e)).

(** A number literal: [-? int frac? exp?]. *)
Definition number (s : string) : option (Q * string) :=
  let '(negative, s1) :=
    match s with
    | String "-" r => (true, r)
    | _ => (false, s)
    end in
  let intPart :=
    match s1 with
    | String "0" r => Some (0%Z, r)
    | String c _ =>
        if Str.isDigit c then let '(v, _, r) := digits 0 0 s1 in Some (v, r) else None
    | EmptyString => None
    end in
  match intPart with
  | None => None
  | Some (i, s2) =>
      let fracPart :=
        match s2 with
        | String "." r =>
            let '(v, n, r') := digits i 0 r in
            if n =? 0 then None else Some (v, Z.of_nat n, r')
        | _ => Some (i, 0%Z, s2)
        end in
      match fracPart with
      | None => None
      | Some (mantissa, scale, s3) =>
          let expPart :=
            match s3 with
            | String e r =>
                if (Str.code e =? 101) || (Str.code e =? 69) then
                  let '(minus, r1) :=
                    match r with
                    | String "-" r0 => (true, r0)
                    | String "+" r0 => (false, r0)
                    | _ => (false, r)
                    end in
                  let '(v, n, r2) := digits 0 0 r1 in
                  if n =? 0 then None else Some ((if minus then - v else v)%Z, r2)
                else Some (0%Z, s3)
            | EmptyString => Some (0%Z, s3)
            end in
          match expPart with
          | None => None
          | Some (e, s4) =>
              let magnitude := (inject_Z mantissa * pow10 (e - scale))%Q in
              Some (if negative then (- magnitude)%Q else magnitude, s4)
          end
      end
  end.

(** A later member of an object replaces an earlier one of the same
    name. *)
Fixpoint setProp (key : string) (v : JsValue) (props : list (string * JsValue))
  : list (string * JsValue) :=
  match props with
  | [] => [(key, v)]
  | (k, v0) :: props' =>
      if String.eqb k key then (k, v) :: props' else (k, v0) :: setProp key v props'
  end.

Section Nested.

(** The parser of the values nested one level deeper. *)
Variable value : string -> option (JsValue * string).

(** The elements of an array after the opening bracket, the array being
    non-empty. *)
Fixpoint elements (n : nat) (acc : list JsValue) (s : string)
  : option (list JsValue * string) :=
  match n with
  | O => None
  | S n' =>
      match value s with
      | Some (v, r) =>
          match skipWs r with
          | String "," r' => elements n' (acc ++ [v]) r'
          | String "]" r' => Some (acc ++ [v], r')
          | _ => None
          end
      | None => None
      end
  end.

(** The members of an object after the opening brace, the object being
    non-empty. *)
Fixpoint members (n : nat) (acc : list (string * JsValue)) (s : string)
  : option (list (string * JsValue) * string) :=
  match n with
  | O => None
  | S n' =>
      match skipWs s with
      | String q r =>
          if Str.code q =? 34 then
            match stringBody (String.length r) r with
            | Some (key, r1) =>
                match skipWs r1 with
                | String ":" r2 =>
                    match value r2 with
                    | Some (v, r3) =>
                        match skipWs r3 with
                        | String "," r4 => members n' (setProp key v acc) r4
                        | String "}" r4 => Some (setProp key v acc, r4)
                        | _ => None
                        end
                    | None => None
                    end
                | _ => None
                end
            | None => None
            end
          else None
      | EmptyString => None
      end
  end.

End Nested.

(** A value, with the whitespace before it. *)
Fixpoint value (fuel : nat) (s : string) : option (JsValue * string) :=
  match fuel with
  | O => None
  | S f =>
      match skipWs s with
      | EmptyString => None
      | String c r as s0 =>
          let x := Str.code c in
          if x =? 34 then
            match stringBody (String.length r) r with
            | Some (body, r') => Some (JsString body, r')
            | None => None
            end
          else if x =? 91 then
            match skipWs r with
            | String "]" r' => Some (JsArray [], r')
            | _ =>
                match elements (value f) (String.length r) [] r with
                | Some (vs, r') => Some (JsArray vs, r')
                | None => None
                end
            end
          else if x =? 123 then
            match skipWs r with
            | String "}" r' => Some (JsObject [], r')
            | _ =>
                match members (value f) (String.length r) [] r with
                | Some (ps, r') => Some (JsObject ps, r')
                | None => None
                end
            end
          else
            match Str.stripPrefix "true" s0, Str.stripPrefix "false" s0,
                  Str.stripPrefix "null" s0 with
            | Some r', _, _ => Some (JsBool true, r')
            | _, Some r', _ => Some (JsBool false, r')
            | _, _, Some r' => Some (JsNull, r')
            | None, None, None =>
                match number s0 with
                | Some (q, r') => Some (JsNumber q, r')
                | None => None
                end
            end
      end
  end.

(** [JSON.parse(text)]: one value, then nothing but whitespace. *)
Definition parse (text : string) : ParseResult :=
  match value (S (String.length text)) text with
  | Some (v, r) =>
      if Str.isEmpty (skipWs r) then Parsed v
      else SyntaxError "Unexpected non-whitespace character after JSON"
  | None => SyntaxError "Unexpected token in JSON"
  end.

End JSON.

Section Pipeline.

(** [JSON.parse] is a built-in of the language; the pipeline is defined
    for any behaviour of it. *)
Variable JSON_parse : string -> ParseResult.

Definition jsonParse (s : string) : M JsValue :=
  match JSON_parse s with
  | Parsed v => ret v
  | SyntaxError message => throw (ErrorObject message)
  end.

(** The body of the [try] block. *)
Definition attemptTranslation (chunk : list SubtitleBlock) : M (list TranslatedBlock) :=
  text <- generateContent chunk ;;
  parsed <- jsonParse (cleanResponse text) ;;
  match parsed with
  | JsArray elements =>
      if length elements =? 0
      then throw (ErrorObject "Invalid response structure")
      else ret (imap (reconcileItem elements) chunk)
  | _ => throw (ErrorObject "Invalid response structure")
  end.

(** The model client and the prompt are built before the [try] block;
    building them calls nothing that can fail.  The recursion of the
    [catch] block is bounded by [MAX_RETRIES - retryCount]. *)
Equations? translateChunk (chunk : list SubtitleBlock) (retryCount : nat)
  : M (list TranslatedBlock) by wf (MAX_RETRIES - retryCount) lt :=
  translateChunk chunk retryCount :=
    tryCatch (attemptTranslation chunk)
      (fun _ =>
         match lt_dec retryCount MAX_RETRIES with
         | left _ =>
             sleep (1000 * N.of_nat (retryCount + 1)) ;;
             translateChunk chunk (retryCount + 1)
         | right _ => ret (map markFailed chunk)
         end).
Proof. lia. Qed.

(** The [for (let i = 0; i < transcript.length; i += chunkSize)] loop,
    entered at index [i] with [translatedSubs] accumulated so far.  The
    chunk size is a parameter [N]; the worker runs the loop at
    [chunkSize].  Each unit of [fuel] pays for one iteration; running out
    of it stands for a loop that never ends. *)
Fixpoint translateLoop (fuel N : nat) (transcript : list SubtitleBlock) (i : nat)
    (translatedSubs : list TranslatedBlock) : M (list TranslatedBlock) :=
  if i <? length transcript then
    match fuel with
    | O => diverge
    | S fuel' =>
        let chunk := slice i (i + N) transcript in
        translated <- translateChunk chunk 0 ;;
        translateLoop fuel' N transcript (i + N) (translatedSubs ++ translated)
    end
  else ret translatedSubs.

Definition generateTranscriptWorker (videoId : string) : M (list TranslatedBlock) :=
  initial_segments <- fetchInitialSegments videoId ;;
  match initial_segments with
  | None =>
      throw (ErrorObject "No transcript found. The video may not have captions enabled.")
  | Some segments =>
      if length segments =? 0
      then throw (ErrorObject "No transcript segments found.")
      else
        let transcript := normalizeSegments segments in
        translateLoop (length transcript) chunkSize transcript 0 []
  end.

Definition getCachedTranscript : string -> M (list TranslatedBlock) :=
  unstable_cache (fun videoId => generateTranscriptWorker videoId) revalidate.

Definition processVideo (videoUrl : string) : M ProcessResult :=
  tryCatch
    (match extractVideoId videoUrl with
     | None =>
         throw (ErrorObject "Invalid YouTube URL. Please enter a valid YouTube link.")
     | Some videoId =>
         (* [!videoId] also holds of the empty string *)
         if Str.isEmpty videoId
         then throw (ErrorObject "Invalid YouTube URL. Please enter a valid YouTube link.")
         else
           data <- getCachedTranscript videoId ;;
           ret (Success data)
     end)
    (fun error => ret (Failure (errorMessage error))).

End Pipeline.

(** ** The chunker on its own *)

(** The slices the loop of the worker takes, from index [i] on, for a chunk
    size [N]; [None] when [fuel] iterations do not reach the end. *)
Fixpoint chunkLoop {A} (fuel N : nat) (T : list A) (i : nat) : option (list (list A)) :=
  if i <? length T then
    match fuel with
    | O => None
    | S fuel' =>
        match chunkLoop fuel' N T (i + N) with
        | Some chunks => Some (slice i (i + N) T :: chunks)
        | None => None
        end
    end
  else Some [].

(** The chunks of a timeline, with the fuel the worker gives its loop. *)
Definition splitChunks {A} (N : nat) (T : list A) : option (list (list A)) :=
  chunkLoop (length T) N T 0.

(** ** Notions used to state the properties *)

(** A position of the input is usable when a marker of the first pattern
    starts there and is followed by at least one identifier character. *)
Definition usableMarkerAt (s : string) : Prop :=
  exists m rest, In m urlMarkers /\ s = m +:+ rest /\ takeIdChars rest <> "".

(** No suffix of [pre +:+ s] that starts inside [pre] matches the first
    pattern at its head. *)
Fixpoint noMatchBefore (pre s : string) : bool :=
  match pre with
  | EmptyString => true
  | String _ pre' =>
      match matchMarkersAt urlMarkers (pre +:+ s) with
      | Some _ => false
      | None => noMatchBefore pre' s
      end
  end.

(** Timing fields agree between an original block and a returned one. *)
Definition sameTiming (orig : SubtitleBlock) (r : TranslatedBlock) : Prop :=
  offset r = offset orig /\ duration r = duration orig.

(** The ways one attempt can fail: the request, the parse, or the structure
    of the parsed value. *)
Inductive AttemptFailure (JSON_parse : string -> ParseResult) (reply : ModelReply) : Prop :=
| RequestError (e : Thrown) :
    reply = ModelThrows e -> AttemptFailure JSON_parse reply
| ParseError (text message : string) :
    reply = ModelText text ->
    JSON_parse (cleanResponse text) = SyntaxError message ->
    AttemptFailure JSON_parse reply
| MalformedStructure (text : string) (v : JsValue) :
    reply = ModelText text ->
    JSON_parse (cleanResponse text) = Parsed v ->
    (forall elements, v = JsArray elements -> elements = []) ->
    AttemptFailure JSON_parse reply.

(** [Math.ceil(a / N)] on naturals. *)
Definition ceilDiv (a N : nat) : nat := (a + N - 1) / N.

(** The translator applied to a list of chunks in order, the results
    appended to [translatedSubs]. *)
Fixpoint translateEach (JSON_parse : string -> ParseResult)
    (chunks : list (list SubtitleBlock)) (translatedSubs : list TranslatedBlock)
  : M (list TranslatedBlock) :=
  match chunks with
  | [] => ret translatedSubs
  | chunk :: chunks' =>
      translated <- translateChunk JSON_parse chunk 0 ;;
      translateEach JSON_parse chunks' (translatedSubs ++ translated)
  end.

(** The Segment Normalizer as the specification words it: a segment is
    included when it carries a start time, an end time and a snippet; an
    absent text becomes the empty string; a time that does not parse counts
    as 0. *)
Definition spec_included (segment : RawSegment) : bool :=
  hasKey (start_ms segment) && hasKey (end_ms segment) && hasKey (snippet segment).

Definition spec_time (t : Field string) : Z :=
  match parseInt (fieldValue t) with
  | Some n => n
  | None => 0%Z
  end.

Definition spec_block (segment : RawSegment) : SubtitleBlock :=
  {| text := match snippetText segment with Some s => s | None => "" end;
     offset := spec_time (start_ms segment);
     duration := (spec_time (end_ms segment) - spec_time (start_ms segment))%Z |}.

Definition spec_normalize (segments : list RawSegment) : list SubtitleBlock :=
  map spec_block (List.filter spec_included segments).

(** The text of a segment is defined (it may be empty). *)
Definition hasText (segment : RawSegment) : bool :=
  match snippetText segment with Some _ => true | None => false end.

(** [Number.MAX_SAFE_INTEGER] and [Number.isSafeInteger] on an integer: up
    to this magnitude every integer is a double, and so is the difference
    of two of them when it is safe itself. *)
Definition MAX_SAFE_INTEGER : Z := 2 ^ 53 - 1.

Definition isSafeInteger (n : Z) : bool := (Z.abs n <=? MAX_SAFE_INTEGER)%Z.

(** The times of a segment, each 0 when it does not parse, and their
    difference are safe integers: the numbers the code computes for the
    segment are then the integers themselves. *)
Definition safeTimes (segment : RawSegment) : bool :=
  isSafeInteger (spec_time (start_ms segment))
  && isSafeInteger (spec_time (end_ms segment))
  && isSafeInteger (spec_time (end_ms segment) - spec_time (start_ms segment)).

(** The entry of [key] that a [get] at the current time would serve. *)
Definition freshEntry (key : string) (w : World) : option CacheEntry :=
  match cache w !! key with
  | Some entry => if isFresh revalidate (clock w) entry then Some entry else None
  | None => None
  end.

(** ** Sample worlds *)

(** A world in which nothing has happened yet: no caption track for any
    video, a model that rejects every request. *)
Definition idleWorld : World :=
  mkWorld (fun _ _ => CaptionInfo None) 0 (fun _ => ModelThrows NotAnError) 0 0 ∅ [].

(** A [JSON.parse] that accepts nothing. *)
Definition rejectAll (s : string) : ParseResult := SyntaxError "Unexpected token".

(** The double quote and the line feed. *)
Definition dq : string := String (ascii_of_nat 34) EmptyString.

Definition newline : string := String (ascii_of_nat 10) EmptyString.

(** Two caption segments. *)
Definition demoSegments : list RawSegment :=
  [ mkRawSegment (Has (Some "0")) (Has (Some "1500")) (Has (Some (mkSnippet (Some "Hello"))));
    mkRawSegment (Has (Some "1500")) (Has (Some "3200")) (Has (Some (mkSnippet (Some "world")))) ].

Definition demoChunk : list SubtitleBlock :=
  [ mkBlock "Hello" 0 1500; mkBlock "world" 1500 1700 ].

(** A fenced model output holding a JSON array of one object, the
    translation of the first block with its offset and duration. *)
Definition demoReply : string :=
  "```json" +:+ newline
  +:+ "[{" +:+ dq +:+ "text" +:+ dq +:+ ":" +:+ dq +:+ "Xin chào" +:+ dq
  +:+ "," +:+ dq +:+ "offset" +:+ dq +:+ ":0"
  +:+ "," +:+ dq +:+ "duration" +:+ dq +:+ ":1500}]" +:+ newline
  +:+ "```".

(** A video with the two caption segments, a model that always answers
    [demoReply], an empty cache. *)
Definition demoWorld : World :=
  mkWorld (fun _ _ => CaptionInfo (Some demoSegments)) 0
          (fun _ => ModelText demoReply) 0 0 ∅ [].

(** A caption track holding one node only, with both times and a snippet
    that has no text, as a bare section header has. *)
Definition headerOnlyWorld : World :=
  mkWorld (fun _ _ =>
             CaptionInfo (Some [ mkRawSegment (Has (Some "0")) (Has (Some "5000"))
                                              (Has (Some (mkSnippet None))) ]))
          0 (fun _ => ModelText demoReply) 0 0 ∅ [].


(** Two nodes with both times: one that ends before it starts and has an
    empty text, one whose snippet has no text. *)
Definition malformedSegments : list RawSegment :=
  [ mkRawSegment (Has (Some "1000")) (Has (Some "400")) (Has (Some (mkSnippet (Some ""))));
    mkRawSegment (Has (Some "0")) (Has (Some "1000")) (Has (Some (mkSnippet None))) ].

(** A node that carries no end time, but a start time and a text. *)
Definition openEndedSegment : RawSegment :=
  mkRawSegment (Has (Some "250")) Missing (Has (Some (mkSnippet (Some "intro")))).

(** Five blocks, one second each. *)
Definition fiveBlocks : list SubtitleBlock :=
  [ mkBlock "one" 0 1000; mkBlock "two" 1000 1000; mkBlock "three" 2000 1000;
    mkBlock "four" 3000 1000; mkBlock "five" 4000 1000 ].

(** ** Notions used by the further properties *)

(** A translation touches the model-call count, the clock and the trace of
    the world, and nothing else. *)
Definition translationFrame (w w' : World) : Prop :=
  captionSource w' = captionSource w
  /\ fetches w' = fetches w
  /\ modelReplies w' = modelReplies w
  /\ cache w' = cache w.

(** The longest total delay translateChunk can still spend with the given
    number of retries left: the delays of the last retries, which are the
    longest. *)
Definition maxDelay (retriesLeft : nat) : N :=
  match retriesLeft with
  | 0 => 0
  | 1 => 3000
  | 2 => 5000
  | _ => 6000
  end.

(** A model that rejects its first two requests and answers [demoReply]
    from then on. *)
Definition flakyWorld : World :=
  mkWorld (fun _ _ => CaptionInfo (Some demoSegments)) 0
          (fun n => if n <? 2 then ModelThrows (ErrorObject "503") else ModelText demoReply)
          0 0 ∅ [].

(** ** Numbers as text *)

(** The decimal digits of [n], most significant first, put before [acc].
    Each unit of [fuel] pays for one more digit. *)
Fixpoint decimalDigits (fuel : nat) (n : N) (acc : string) : string :=
  let acc' := String (ascii_of_N (48 + n mod 10)) acc in
  match fuel with
  | O => acc'
  | S fuel' => if (n <? 10)%N then acc' else decimalDigits fuel' (n / 10) acc'
  end.

(** [String(n)] for a natural number; a number has no more decimal digits
    than binary ones. *)
Definition naturalToString (n : N) : string :=
  decimalDigits (N.to_nat (N.log2 n)) n "".

(** [String(n)] and the conversion made by a template literal, for an
    integer (below 10^21 in magnitude, where JavaScript still writes all the
    digits). *)
Definition numberToString (n : Z) : string :=
  if (n <? 0)%Z then "-" +:+ naturalToString (Z.to_N (- n))
  else naturalToString (Z.to_N n).

(** [s.padStart(targetLength, fill)] for a one-character filler. *)
Definition padStart (targetLength : nat) (fill : ascii) (s : string) : string :=
  string_of_list_ascii (repeat fill (targetLength - String.length s)) +:+ s.

(** ** lib/utils.ts: the subtitle file *)

(** [formatTime] of lib/utils.ts.  [Math.floor(a / b)] is the floored
    quotient [a / b] of [Z]; [a % b] is the remainder [Z.rem], which takes
    the sign of [a].  The code divides doubles and rounds the quotient
    before it takes the floor; for a safe integer [ms] ([isSafeInteger])
    the rounding never reaches the next integer (a quotient by 1000 is at
    least 0.001 below it, more than half the gap between doubles of that
    size), and the fields are the ones computed here. *)
Definition formatTime (ms : Z) : string :=
  let totalSeconds := (ms / 1000)%Z in
  let hours := (totalSeconds / 3600)%Z in
  let minutes := (Z.rem totalSeconds 3600 / 60)%Z in
  let seconds := Z.rem totalSeconds 60 in
  let milliseconds := Z.rem ms 1000 in
  padStart 2 "0" (numberToString hours) +:+ ":"
  +:+ padStart 2 "0" (numberToString minutes) +:+ ":"
  +:+ padStart 2 "0" (numberToString seconds) +:+ ","
  +:+ padStart 3 "0" (numberToString milliseconds).

(** [array.join(separator)] on strings. *)
Fixpoint join (separator : string) (parts : list string) : string :=
  match parts with
  | [] => ""
  | [part] => part
  | part :: parts' => part +:+ separator +:+ join separator parts'
  end.

(** The callback of the [subtitles.map] of generateSRT.  The template
    literal converts [sub.text] to a string; [toStr] is that conversion, the
    identity on a string. *)
Definition srtEntry {T} (toStr : T -> string) (index : nat) (sub : Block T) : string :=
  numberToString (Z.of_nat index + 1) +:+ newline
  +:+ formatTime (offset sub) +:+ " --> " +:+ formatTime (offset sub + duration sub)
  +:+ newline
  +:+ toStr (text sub) +:+ newline.

Definition generateSRT {T} (toStr : T -> string) (subtitles : list (Block T)) : string :=
  join newline (imap (srtEntry toStr) subtitles).

(** The lines of a text: the pieces between line feeds, as
    [text.split("\n")] gives them. *)
Fixpoint lines (s : string) : list string :=
  match s with
  | EmptyString => [EmptyString]
  | String c s' =>
      if Ascii.eqb c "010" then EmptyString :: lines s'
      else
        match lines s' with
        | line :: rest => String c line :: rest
        | [] => [String c EmptyString]
        end
  end.

(** No line feed occurs in [s]. *)
Definition singleLine (s : string) : bool :=
  Str.all (fun c => negb (Ascii.eqb c "010")) s.

(** A caption node as the caption source builds one from numeric times: the
    times are written in decimal, the snippet carries the text. *)
Definition captionNode (entry : string * Z * Z) : RawSegment :=
  let '(caption, startMs, endMs) := entry in
  mkRawSegment (Has (Some (numberToString startMs)))
               (Has (Some (numberToString endMs)))
               (Has (Some (mkSnippet (Some caption)))).

(** The block that starts and ends where the node does. *)
Definition blockOf (entry : string * Z * Z) : SubtitleBlock :=
  let '(caption, startMs, endMs) := entry in
  mkBlock caption startMs (endMs - startMs).

(** The times of the node and their difference are safe integers. *)
Definition safeEntry (entry : string * Z * Z) : bool :=
  let '(_, startMs, endMs) := entry in
  isSafeInteger startMs && isSafeInteger endMs && isSafeInteger (endMs - startMs).

(** The four lines generateSRT writes for the block at [index]. *)
Definition srtLines {T} (toStr : T -> string) (index : nat) (sub : Block T) : list string :=
  [ numberToString (Z.of_nat index + 1);
    formatTime (offset sub) +:+ " --> " +:+ formatTime (offset sub + duration sub);
    toStr (text sub);
    "" ].

(** ** app/page.tsx: the page around the server action *)

Module Page.

(** *** getVideoId *)

(** A line terminator at the head of [s]: LF, CR, U+2028 or U+2029 (in
  UTF-8 the bytes E2 80 A8 and E2 80 A9). *)
Definition lineTerminatorAt (s : string) : bool :=
match s with
| String a r =>
    (Str.code a =? 10) || (Str.code a =? 13)
    || ((Str.code a =? 226)
        && match r with
           | String b (String c _) =>
               (Str.code b =? 128) && ((Str.code c =? 168) || (Str.code c =? 169))
           | _ => false
           end)
| EmptyString => false
end.

(** The unescaped [.] of [youtu.be]: one UTF-16 code unit that is no line
  terminator.  A character of one, two or three bytes is one code unit; of
  a character of four bytes [.] takes the first half only, and the other
  half is not the [b] the pattern wants next. *)
Definition anyChar (s : string) : option string :=
if lineTerminatorAt s then None
else
  match s with
  | String a r =>
      let x := Str.code a in
      if x <? 128 then Some r
      else if x <? 224 then
        match r with String _ r' => Some r' | EmptyString => None end
      else if x <? 240 then
        match r with String _ (String _ r') => Some r' | _ => None end
      else None
  | EmptyString => None
  end.

(** [\w] *)
Definition wordChar (s : string) : option string :=
match s with
| String c r =>
    if Str.isLower c || Str.isUpper c || Str.isDigit c || Ascii.eqb c "_"
    then Some r else None
| EmptyString => None
end.

Definition andThen {A B} (o : option A) (f : A -> option B) : option B :=
match o with Some a => f a | None => None end.

(** The alternatives of group 1, in the order of the regex; each gives the
  input after the marker. *)
Definition markerAlternatives : list (string -> option string) :=
[ fun s => andThen (andThen (Str.stripPrefix "youtu" s) anyChar) (Str.stripPrefix "be/");
  Str.stripPrefix "v/";
  fun s => andThen (andThen (Str.stripPrefix "u/" s) wordChar) (Str.stripPrefix "/");
  Str.stripPrefix "embed/";
  Str.stripPrefix "watch?v=";
  Str.stripPrefix "&v=" ].

(** Group 1 tried at the head of [s]. *)
Definition markerAt (s : string) : option string :=
firstMatch markerAlternatives s.

(** The greedy [^.*] followed by group 1: of the positions that no line
  terminator precedes, the last one where an alternative matches.  What
  follows group 1, the starred class of group 2 and the final starred
  dot, matches whatever comes, so no earlier position is ever tried once
  one matches. *)
Fixpoint lastMarker (s : string) : option string :=
match s with
| EmptyString => markerAt s
| String _ s' =>
    if lineTerminatorAt s then markerAt s
    else
      match lastMarker s' with
      | Some rest => Some rest
      | None => markerAt s
      end
end.

(** The greedy run [[^#&?]*] at the head of [s]. *)
Fixpoint takeGroup2 (s : string) : string :=
match s with
| EmptyString => EmptyString
| String c s' =>
    if Ascii.eqb c "#" || Ascii.eqb c "&" || Ascii.eqb c "?" then EmptyString
    else String c (takeGroup2 s')
end.

(** [s.length]: the number of UTF-16 code units of the text whose UTF-8
  encoding is [s]: one per character, two for a character of four
  bytes. *)
Fixpoint utf16Length (s : string) : nat :=
match s with
| EmptyString => 0
| String c s' =>
    let x := Str.code c in
    (if (128 <=? x) && (x <? 192) then 0 else if 240 <=? x then 2 else 1)
    + utf16Length s'
end.

Definition getVideoId (url : string) : option string :=
match lastMarker url with
| Some rest =>
    if utf16Length (takeGroup2 rest) =? 11 then Some (takeGroup2 rest) else None
| None => None
end.

(** *** The subtitle shown while the video plays *)






(** *** handleProcess *)

(** The state of the component that handleProcess reads and sets. *)
Record HomeState : Type := mkHomeState {
url : string;
loading : bool;
subtitles : list TranslatedBlock;
videoReady : bool;
error : string;
shown : JsValue;
}.

(** [result.error || 'An error occurred'] *)
Definition shownError (message : string) : string :=
if Str.isEmpty message then "An error occurred" else message.

Section Handlers.

Variable JSON_parse : string -> ParseResult.

Definition handleProcess (st : HomeState) : M HomeState :=
if Str.isEmpty (url st) then ret st
else
let started := mkHomeState (url st) true [] false "" (JsString "") in
result <- processVideo JSON_parse (url st) ;;
let settled :=
  match result with
  | Success data =>
      mkHomeState (url started) (loading started) data true
                  (error started) (shown started)
  | Failure message =>
      mkHomeState (url started) (loading started) (subtitles started)
                  (videoReady started) (shownError message) (shown started)
  end in
ret (mkHomeState (url settled) false (subtitles settled) (videoReady settled)
                 (error settled) (shown settled)).

End Handlers.

End Page.

(** A byte that starts no line terminator: not LF, not CR, and not the first
    byte of U+2028 or U+2029. *)
Definition plainChar (c : ascii) : bool :=
  negb (Str.code c =? 10) && negb (Str.code c =? 13) && negb (Str.code c =? 226).

(** Sample page states. *)
Definition freshHome (address : string) : Page.HomeState :=
  Page.mkHomeState address false [] false "" (JsString "").


(** Character classes used to state what the cleaning keeps. *)
Definition notBracket (c : ascii) : bool :=
  negb (Ascii.eqb c "[" || Ascii.eqb c "]").

Definition notTick (c : ascii) : bool := negb (Ascii.eqb c "`").

(** What a reply may put around its array: prose and a fence before it, the
    closing fence after it. *)
Definition replyPreamble : string :=
  "Here is the translation:" +:+ newline +:+ "```json" +:+ newline.

Definition replyPostamble : string := newline +:+ "```" +:+ newline.

(** No line terminator starts anywhere in [s]: no LF, no CR, no U+2028 and
    no U+2029. *)
Fixpoint noLineTerminator (s : string) : bool :=
  match s with
  | EmptyString => true
  | String _ s' => negb (Page.lineTerminatorAt s) && noLineTerminator s'
  end.

(** An address written with an en dash (E2 80 93) and a euro sign
    (E2 82 AC) in front of it. *)
Definition decoratedAddress : string :=
  String (ascii_of_nat 226) (String (ascii_of_nat 128) (String (ascii_of_nat 147)
    (String (ascii_of_nat 226) (String (ascii_of_nat 130) (String (ascii_of_nat 172)
      " https://m.youtube.com/"))))).

(** * Properties *)

(** ** Runs on concrete inputs *)

Example parseInt_decimal : parseInt (Some "1500") = Some 1500%Z.
Proof. reflexivity. Qed.

Example parseInt_prefix : parseInt (Some " -12px") = Some (-12)%Z.
Proof. reflexivity. Qed.

Example parseInt_hex : parseInt (Some "0x1F") = Some 31%Z.
Proof. reflexivity. Qed.

Example parseInt_undefined : parseInt None = None.
Proof. reflexivity. Qed.

(** A node with a start time and a text but no end time passes the filter;
    its end time counts as 0. *)
Example normalizeSegments_without_end_time :
  normalizeSegments
    [ mkRawSegment (Has (Some "1000")) Missing (Has (Some (mkSnippet (Some "hi")))) ]
  = [ mkBlock "hi" 1000 (-1000) ].
Proof. reflexivity. Qed.

Example cleanResponse_fenced :
  cleanResponse ("Sure: ```JSON" +:+ newline +:+ "[1, [2]] done" +:+ newline +:+ "```")
  = "[1, [2]]".
Proof. reflexivity. Qed.

Example cleanResponse_no_array : cleanResponse "  sorry  " = "sorry".
Proof. reflexivity. Qed.

Example JSON_parse_demoReply :
  JSON.parse (cleanResponse demoReply)
  = Parsed (JsArray [ JsObject [ ("text", JsString "Xin chào");
                                 ("offset", JsNumber 0);
                                 ("duration", JsNumber 1500) ] ]).
Proof. reflexivity. Qed.

Example JSON_parse_trailing_comma : JSON.parse "[1,]" = SyntaxError "Unexpected token in JSON".
Proof. reflexivity. Qed.

Example splitChunks_five_by_two :
  splitChunks 2 [1; 2; 3; 4; 5] = Some [[1; 2]; [3; 4]; [5]].
Proof. reflexivity. Qed.

(** With a chunk size of 0 the index never advances. *)
Example splitChunks_zero : splitChunks 0 [1; 2; 3] = None.
Proof. reflexivity. Qed.

Example processVideo_demo :
  fst (processVideo JSON.parse "https://youtu.be/dQw4w9WgXcQ" demoWorld)
  = Returned (Success [ mkBlock (JsString "Xin chào") 0 1500;
                        mkBlock (JsString "world") 1500 1700 ]).
Proof. vm_compute. reflexivity. Qed.

Example processVideo_no_captions :
  fst (processVideo JSON.parse "dQw4w9WgXcQ" idleWorld)
  = Returned (Failure "No transcript found. The video may not have captions enabled.").
Proof. vm_compute. reflexivity. Qed.

(** ** extractVideoId *)

Lemma append_nil_l (s : string) : "" +:+ s = s.
Proof. reflexivity. Qed.

Lemma append_cons (c : ascii) (s t : string) : String c s +:+ t = String c (s +:+ t).
Proof. reflexivity. Qed.

Lemma stripPrefix_app (p s : string) : Str.stripPrefix p (p +:+ s) = Some s.
Proof.
  induction p as [|a p IH]; [reflexivity|].
  rewrite append_cons. simpl. rewrite Ascii.eqb_refl. exact IH.
Qed.

Lemma stripPrefix_Some (p s r : string) :
  Str.stripPrefix p s = Some r -> s = p +:+ r.
Proof.
  revert s. induction p as [|a p IH]; intros s H; simpl in H.
  - rewrite append_nil_l. congruence.
  - destruct s as [|b s]; [discriminate|].
    destruct (Ascii.eqb a b) eqn:E; [|discriminate].
    apply Ascii.eqb_eq in E. subst b. rewrite append_cons. f_equal. auto.
Qed.

Lemma isEmpty_true (s : string) : Str.isEmpty s = true <-> s = "".
Proof. destruct s; simpl; split; congruence. Qed.

Lemma isEmpty_false (s : string) : Str.isEmpty s = false <-> s <> "".
Proof. destruct s; simpl; split; congruence. Qed.

Lemma matchMarkersAt_None (ms : list string) (s : string) :
  matchMarkersAt ms s = None ->
  forall m rest, In m ms -> s = m +:+ rest -> takeIdChars rest = "".
Proof.
  induction ms as [|m0 ms IH]; simpl; intros H m rest Hin Hs; [contradiction|].
  destruct Hin as [->|Hin].
  - subst s. rewrite stripPrefix_app in H.
    destruct (Str.isEmpty (takeIdChars rest)) eqn:E; [|discriminate].
    now apply isEmpty_true.
  - destruct (Str.stripPrefix m0 s) as [r|]; [|eauto].
    destruct (Str.isEmpty (takeIdChars r)); [eauto|discriminate].
Qed.

Lemma matchMarkersAt_not_usable (s : string) :
  ~ usableMarkerAt s -> matchMarkersAt urlMarkers s = None.
Proof.
  intros H. unfold usableMarkerAt in H.
  assert (G : forall ms, (forall m, In m ms -> In m urlMarkers) -> matchMarkersAt ms s = None).
  { induction ms as [|m0 ms IH]; intros Hsub; simpl; [reflexivity|].
    destruct (Str.stripPrefix m0 s) as [r|] eqn:E.
    - destruct (Str.isEmpty (takeIdChars r)) eqn:E2.
      + apply IH. intros; apply Hsub; now right.
      + exfalso. apply H. exists m0, r. split; [apply Hsub; now left|].
        split; [now apply stripPrefix_Some|]. now apply isEmpty_false.
    - apply IH. intros; apply Hsub; now right. }
  apply G. auto.
Qed.

Lemma matchMarkersAt_marker (m rest : string) :
  In m urlMarkers -> takeIdChars rest <> "" ->
  matchMarkersAt urlMarkers (m +:+ rest) = Some (takeIdChars rest).
Proof.
  intros Hin Hne. apply isEmpty_false in Hne.
  unfold urlMarkers in Hin. simpl in Hin.
  destruct Hin as [<-|[<-|[<-|[]]]];
    rewrite !append_cons, append_nil_l; cbn; rewrite Hne; reflexivity.
Qed.

Lemma matchUrlPattern_skip (pre s : string) :
  (forall p1 p2, pre = p1 +:+ p2 -> p2 <> "" -> ~ usableMarkerAt (p2 +:+ s)) ->
  matchUrlPattern (pre +:+ s) = matchUrlPattern s.
Proof.
  induction pre as [|c pre IH]; intros H; [reflexivity|].
  rewrite append_cons. cbn [matchUrlPattern].
  rewrite (matchMarkersAt_not_usable (String c (pre +:+ s))).
  - apply IH. intros p1 p2 E Hne. apply (H (String c p1) p2); [|exact Hne].
    now rewrite append_cons, E.
  - rewrite <- append_cons. apply (H "" (String c pre)); [reflexivity|discriminate].
Qed.

Lemma matchUrlPattern_here (s id : string) :
  matchMarkersAt urlMarkers s = Some id -> matchUrlPattern s = Some id.
Proof. intros H. destruct s; cbn [matchUrlPattern]; now rewrite H. Qed.

Lemma takeIdChars_split (rest : string) :
  exists tail,
    rest = takeIdChars rest +:+ tail
    /\ Str.all (fun c => negb (isIdTerminator c)) (takeIdChars rest) = true
    /\ (tail = "" \/ exists c t, tail = String c t /\ isIdTerminator c = true).
Proof.
  induction rest as [|c rest IH]; simpl.
  - exists "". auto.
  - destruct (isIdTerminator c) eqn:E.
    + exists (String c rest). split; [reflexivity|]. split; [reflexivity|].
      right. eauto.
    + destruct IH as (tail & E1 & E2 & E3). exists tail.
      rewrite append_cons, <- E1. simpl. rewrite E, E2. auto.
Qed.

Lemma noMatchBefore_spec (pre s : string) :
  noMatchBefore pre s = true ->
  forall p1 p2, pre = p1 +:+ p2 -> p2 <> "" -> ~ usableMarkerAt (p2 +:+ s).
Proof.
  induction pre as [|c pre IH]; intros H p1 p2 E Hne.
  - destruct p1; [|discriminate]. rewrite append_nil_l in E. congruence.
  - cbn [noMatchBefore] in H.
    destruct (matchMarkersAt urlMarkers (String c pre +:+ s)) as [id|] eqn:Em;
      [discriminate|].
    destruct p1 as [|c1 p1].
    + rewrite append_nil_l in E. subst p2.
      intros (m & rest & Hin & Hs & Hrest).
      apply Hrest. eapply matchMarkersAt_None; eauto.
    + rewrite append_cons in E. injection E as -> E.
      now apply (IH H p1 p2).
Qed.

Lemma matchMarkersAt_nonempty (ms : list string) (s id : string) :
  matchMarkersAt ms s = Some id -> Str.isEmpty id = false.
Proof.
  induction ms as [|m ms IH]; simpl; [discriminate|].
  destruct (Str.stripPrefix m s) as [rest|]; [|exact IH].
  destruct (Str.isEmpty (takeIdChars rest)) eqn:E; [exact IH|].
  now intros [= <-].
Qed.

Lemma matchUrlPattern_nonempty (s id : string) :
  matchUrlPattern s = Some id -> Str.isEmpty id = false.
Proof.
  induction s as [|c s IH]; cbn [matchUrlPattern];
    destruct (matchMarkersAt urlMarkers _) as [id'|] eqn:E;
    try discriminate; try exact IH;
    intros [= <-]; eapply matchMarkersAt_nonempty, E.
Qed.

(** extractVideoId never yields the empty identifier, so the [!videoId]
    test of processVideo fails only on [null]. *)
Lemma extractVideoId_nonempty (url id : string) :
  extractVideoId url = Some id -> Str.isEmpty id = false.
Proof.
  unfold extractVideoId. cbn [firstMatch patterns].
  destruct (matchUrlPattern url) as [id'|] eqn:E.
  - intros [= <-]. eapply matchUrlPattern_nonempty, E.
  - unfold matchBarePattern.
    destruct ((String.length url =? 11) && Str.all isBareIdChar url) eqn:E2;
      [|discriminate].
    intros [= <-]. apply andb_true_iff in E2 as [E2 _].
    apply Nat.eqb_eq in E2. now destruct url.
Qed.

(** C9: the long-form watch URL, the short link, the bare identifier and
    the embed URL of the identifier dQw4w9WgXcQ all yield that identifier;
    an embed URL yields the identifier characters that follow the marker;
    [not a url] yields no identifier; and whenever no identifier can be
    extracted, processVideo ends in the failure result carrying the
    invalid-URL message, without touching the world. *)
Theorem extractVideoId_accepted_forms :
  extractVideoId "https://www.youtube.com/watch?v=dQw4w9WgXcQ" = Some "dQw4w9WgXcQ"
  /\ extractVideoId "https://youtu.be/dQw4w9WgXcQ" = Some "dQw4w9WgXcQ"
  /\ extractVideoId "dQw4w9WgXcQ" = Some "dQw4w9WgXcQ"
  /\ extractVideoId "https://www.youtube.com/embed/dQw4w9WgXcQ" = Some "dQw4w9WgXcQ"
  /\ (forall id, takeIdChars id <> "" ->
        extractVideoId ("https://www.youtube.com/embed/" +:+ id) = Some (takeIdChars id))
  /\ extractVideoId "not a url" = None
  /\ (forall JSON_parse url w,
        extractVideoId url = None ->
        processVideo JSON_parse url w = (Returned (Failure "Invalid YouTube URL. Please enter a valid YouTube link."), w)).
Proof.
  repeat split; try reflexivity.
  - intros id Hne. apply isEmpty_false in Hne.
    rewrite !append_cons, append_nil_l. cbn. now rewrite Hne.
  - intros JSON_parse url w H. unfold processVideo, tryCatch. now rewrite H.
Qed.

Lemma extractVideoId_accepted_forms_witness :
  processVideo rejectAll "not a url" idleWorld
  = (Returned (Failure "Invalid YouTube URL. Please enter a valid YouTube link."), idleWorld).
Proof.
  apply (proj2 (proj2 (proj2 (proj2 (proj2 (proj2 extractVideoId_accepted_forms)))))).
  reflexivity.
Defined.

(** C10, as stated, fails: a marker directly followed by the end of the
    input (or by a terminator) yields no identifier, not the empty run. *)
Lemma extractVideoId_marker_counterexample :
  In "youtu.be/" urlMarkers
  /\ extractVideoId ("https://" +:+ "youtu.be/" +:+ "") = None
  /\ extractVideoId ("https://" +:+ "youtu.be/" +:+ "") <> Some (takeIdChars "").
Proof.
  split; [right; left; reflexivity|]. split; [reflexivity|discriminate].
Qed.

(** C10, amended: when a marker is followed by at least one character other
    than [&], newline, [?] and [#], and no earlier position of the input
    starts such a marker occurrence, extractVideoId returns all characters
    that follow the marker up to the first of those four characters or the
    end of the input, whatever their number; identifiers of 3 and of 14
    characters come out of URL-shaped inputs, while a bare input must have
    exactly 11. *)
Theorem extractVideoId_url_marker :
  (forall pre m rest : string,
      In m urlMarkers ->
      takeIdChars rest <> "" ->
      (forall p1 p2, pre = p1 +:+ p2 -> p2 <> "" -> ~ usableMarkerAt (p2 +:+ m +:+ rest)) ->
      extractVideoId (pre +:+ m +:+ rest) = Some (takeIdChars rest)
      /\ exists tail,
          rest = takeIdChars rest +:+ tail
          /\ Str.all (fun c => negb (isIdTerminator c)) (takeIdChars rest) = true
          /\ (tail = "" \/ exists c t, tail = String c t /\ isIdTerminator c = true))
  /\ extractVideoId "https://youtu.be/abc" = Some "abc"
  /\ extractVideoId "https://youtu.be/dQw4w9WgXcQxyz&t=1" = Some "dQw4w9WgXcQxyz"
  /\ extractVideoId "abc" = None
  /\ extractVideoId "dQw4w9WgXcQxyz" = None.
Proof.
  split; [|repeat split; reflexivity].
  intros pre m rest Hin Hne Hfirst. split; [|apply takeIdChars_split].
  unfold extractVideoId. cbn [firstMatch patterns].
  rewrite (matchUrlPattern_skip pre (m +:+ rest) Hfirst).
  rewrite (matchUrlPattern_here _ _ (matchMarkersAt_marker m rest Hin Hne)).
  reflexivity.
Qed.

Lemma extractVideoId_url_marker_witness :
  extractVideoId ("https://www." +:+ "youtube.com/watch?v=" +:+ "dQw4w9WgXcQxyz&t=42")
  = Some "dQw4w9WgXcQxyz".
Proof.
  apply (proj1 extractVideoId_url_marker "https://www." "youtube.com/watch?v="
               "dQw4w9WgXcQxyz&t=42").
  - left. reflexivity.
  - discriminate.
  - apply noMatchBefore_spec. reflexivity.
Defined.

(** ** translateChunk *)

(** Unfolds the plumbing of the monad and of the effectful primitives. *)
Ltac unfold_run :=
  unfold generateContent, jsonParse, fetchInitialSegments, cacheGet, cacheSet, sleep,
    tryCatch, bind, ret, throw, diverge in *.

Section TranslatorFacts.

Variable JSON_parse : string -> ParseResult.

Lemma attemptTranslation_parsed chunk w text elements :
  modelReplies w (modelCalls w) = ModelText text ->
  JSON_parse (cleanResponse text) = Parsed (JsArray elements) ->
  elements <> [] ->
  attemptTranslation JSON_parse chunk w
  = (Returned (imap (reconcileItem elements) chunk), afterModelCall chunk w).
Proof.
  intros Hr Hp Hne.
  unfold attemptTranslation. unfold_run.
  rewrite Hr, Hp.
  destruct elements; [congruence|reflexivity].
Qed.

Lemma attemptTranslation_failure chunk w :
  AttemptFailure JSON_parse (modelReplies w (modelCalls w)) ->
  exists e, attemptTranslation JSON_parse chunk w = (Threw e, afterModelCall chunk w).
Proof.
  intros H. unfold attemptTranslation. unfold_run.
  destruct H as [e Hr|text message Hr Hp|text v Hr Hp Hv]; rewrite Hr.
  - eauto.
  - rewrite Hp. eauto.
  - rewrite Hp.
    destruct v; eauto.
    rewrite (Hv elements eq_refl). simpl. eauto.
Qed.

(** Every attempt either yields the reconciled chunk or throws; in both
    cases exactly one model call has been made. *)
Lemma attemptTranslation_cases chunk w :
  (exists elements,
      attemptTranslation JSON_parse chunk w
      = (Returned (imap (reconcileItem elements) chunk), afterModelCall chunk w))
  \/ (exists e, attemptTranslation JSON_parse chunk w = (Threw e, afterModelCall chunk w)).
Proof.
  unfold attemptTranslation. unfold_run.
  destruct (modelReplies w (modelCalls w)) as [e|text];
    [right; eexists; reflexivity|].
  destruct (JSON_parse (cleanResponse text)) as [v|message];
    [|right; eexists; reflexivity].
  destruct v; try (right; eexists; reflexivity).
  destruct (length elements =? 0); [right|left]; eexists; reflexivity.
Qed.

Lemma translateChunk_success chunk retryCount w result w' :
  attemptTranslation JSON_parse chunk w = (Returned result, w') ->
  translateChunk JSON_parse chunk retryCount w = (Returned result, w').
Proof.
  intros H. rewrite translateChunk_equation_1. unfold_run. now rewrite H.
Qed.

Lemma translateChunk_retry chunk retryCount w e w' :
  attemptTranslation JSON_parse chunk w = (Threw e, w') ->
  retryCount < MAX_RETRIES ->
  translateChunk JSON_parse chunk retryCount w
  = translateChunk JSON_parse chunk (retryCount + 1)
      (afterSleep (1000 * N.of_nat (retryCount + 1)) w').
Proof.
  intros H Hlt. rewrite (translateChunk_equation_1 JSON_parse chunk retryCount).
  unfold tryCatch. rewrite H.
  destruct (lt_dec retryCount MAX_RETRIES); [|contradiction].
  reflexivity.
Qed.

Lemma translateChunk_give_up chunk retryCount w e w' :
  attemptTranslation JSON_parse chunk w = (Threw e, w') ->
  ~ retryCount < MAX_RETRIES ->
  translateChunk JSON_parse chunk retryCount w = (Returned (map markFailed chunk), w').
Proof.
  intros H Hlt. rewrite translateChunk_equation_1. unfold tryCatch. rewrite H.
  destruct (lt_dec retryCount MAX_RETRIES); [contradiction|].
  reflexivity.
Qed.

Lemma reconcile_sameTiming elements chunk :
  Forall2 sameTiming chunk (imap (reconcileItem elements) chunk).
Proof.
  apply Forall2_lookup. intros i. rewrite list_lookup_imap.
  destruct (chunk !! i); constructor. split; reflexivity.
Qed.

Lemma markFailed_sameTiming chunk :
  Forall2 sameTiming chunk (map markFailed chunk).
Proof.
  induction chunk; constructor; [split; reflexivity|assumption].
Qed.

(** translateChunk always returns, and what it returns has the timing of
    the chunk. *)
Lemma translateChunk_returns chunk retryCount w :
  exists result w',
    translateChunk JSON_parse chunk retryCount w = (Returned result, w')
    /\ Forall2 sameTiming chunk result.
Proof.
  remember (MAX_RETRIES - retryCount) as n eqn:En.
  revert retryCount w En.
  induction n as [|n IH]; intros retryCount w En.
  - destruct (attemptTranslation_cases chunk w) as [[elements H]|[e H]].
    + eexists _, _. split; [apply translateChunk_success, H|].
      apply reconcile_sameTiming.
    + eexists _, _. split; [eapply translateChunk_give_up; [exact H|lia]|].
      apply markFailed_sameTiming.
  - destruct (attemptTranslation_cases chunk w) as [[elements H]|[e H]].
    + eexists _, _. split; [apply translateChunk_success, H|].
      apply reconcile_sameTiming.
    + rewrite (translateChunk_retry _ _ _ _ _ H) by lia.
      apply IH. lia.
Qed.

End TranslatorFacts.

(** C1: whatever the model answers on each attempt and whatever
    [JSON.parse] makes of it, translateChunk returns a list as long as the
    chunk whose block at every index has the offset and the duration of the
    original block at that index. *)
Theorem translateChunk_preserves_timing
    (JSON_parse : string -> ParseResult) (chunk : list SubtitleBlock)
    (retryCount : nat) (w : World) :
  exists result w',
    translateChunk JSON_parse chunk retryCount w = (Returned result, w')
    /\ length result = length chunk
    /\ forall i orig, chunk !! i = Some orig ->
         exists r, result !! i = Some r
                   /\ offset r = offset orig /\ duration r = duration orig.
Proof.
  destruct (translateChunk_returns JSON_parse chunk retryCount w)
    as (result & w' & Hrun & Hsame).
  exists result, w'. split; [exact Hrun|]. split.
  - symmetry. eapply Forall2_length, Hsame.
  - intros i orig Hi.
    destruct (Forall2_lookup_l _ _ _ _ _ Hsame Hi) as (r & Hr & Ho & Hd).
    eauto.
Qed.



(** C3, as stated, fails: with every attempt failing, four attempts are
    made, not three. *)
Lemma translateChunk_attempts_counterexample :
  (forall k, AttemptFailure rejectAll (modelReplies idleWorld (modelCalls idleWorld + k)))
  /\ modelCalls (snd (translateChunk rejectAll [mkBlock "hello" 0 1000] 0 idleWorld))
     - modelCalls idleWorld = 4
  /\ 4 <> MAX_RETRIES.
Proof.
  split; [intros k; now apply RequestError with (e := NotAnError)|].
  split; [reflexivity|discriminate].
Qed.

(** C3, amended: when every attempt fails (request error, parse error or
    malformed structure) translateChunk still returns: the original chunk
    with the failure marker put before every text and the timing fields
    unchanged.  It makes one attempt and then the configured maximum of 3
    retries, 4 attempts in all, and waits [k * 1000] ms after the [k]-th
    failed attempt, for [k] from 1 to 3. *)
Theorem translateChunk_all_attempts_fail
    (JSON_parse : string -> ParseResult) (chunk : list SubtitleBlock) (w : World) :
  (forall k, k <= MAX_RETRIES ->
             AttemptFailure JSON_parse (modelReplies w (modelCalls w + k))) ->
  exists result w',
    translateChunk JSON_parse chunk 0 w = (Returned result, w')
    /\ length result = length chunk
    /\ (forall i orig, chunk !! i = Some orig ->
          result !! i = Some {| text := JsString (failureMarker +:+ text orig);
                                offset := offset orig;
                                duration := duration orig |})
    /\ modelCalls w' = modelCalls w + (MAX_RETRIES + 1)
    /\ trace w' = trace w ++ [ EvModelCall chunk; EvSleep 1000;
                               EvModelCall chunk; EvSleep 2000;
                               EvModelCall chunk; EvSleep 3000;
                               EvModelCall chunk ].
Proof.
  intros Hfail.
  set (w1 := afterSleep 1000 (afterModelCall chunk w)).
  set (w2 := afterSleep 2000 (afterModelCall chunk w1)).
  set (w3 := afterSleep 3000 (afterModelCall chunk w2)).
  assert (F0 : AttemptFailure JSON_parse (modelReplies w (modelCalls w))).
  { specialize (Hfail 0). rewrite Nat.add_0_r in Hfail. apply Hfail. unfold MAX_RETRIES. lia. }
  assert (F1 : AttemptFailure JSON_parse (modelReplies w1 (modelCalls w1))).
  { specialize (Hfail 1). simpl. rewrite <- Nat.add_1_r. apply Hfail. unfold MAX_RETRIES. lia. }
  assert (F2 : AttemptFailure JSON_parse (modelReplies w2 (modelCalls w2))).
  { specialize (Hfail 2). simpl.
    replace (S (S (modelCalls w))) with (modelCalls w + 2) by lia.
    apply Hfail. unfold MAX_RETRIES. lia. }
  assert (F3 : AttemptFailure JSON_parse (modelReplies w3 (modelCalls w3))).
  { specialize (Hfail 3). simpl.
    replace (S (S (S (modelCalls w)))) with (modelCalls w + 3) by lia.
    apply Hfail. unfold MAX_RETRIES. lia. }
  destruct (attemptTranslation_failure JSON_parse chunk w F0) as [e0 H0].
  destruct (attemptTranslation_failure JSON_parse chunk w1 F1) as [e1 H1].
  destruct (attemptTranslation_failure JSON_parse chunk w2 F2) as [e2 H2].
  destruct (attemptTranslation_failure JSON_parse chunk w3 F3) as [e3 H3].
  exists (map markFailed chunk), (afterModelCall chunk w3). split.
  - rewrite (translateChunk_retry _ _ _ _ _ _ H0) by (unfold MAX_RETRIES; lia).
    rewrite (translateChunk_retry _ _ _ _ _ _ H1) by (unfold MAX_RETRIES; lia).
    rewrite (translateChunk_retry _ _ _ _ _ _ H2) by (unfold MAX_RETRIES; lia).
    apply (translateChunk_give_up _ _ _ _ _ _ H3). unfold MAX_RETRIES. lia.
  - split; [apply length_map|]. split.
    + intros i orig Hi. rewrite list_lookup_fmap, Hi. reflexivity.
    + split; [simpl; unfold MAX_RETRIES; lia|].
      simpl. rewrite <- !app_assoc. reflexivity.
Qed.

Lemma translateChunk_all_attempts_fail_witness :
  exists result w',
    translateChunk rejectAll demoChunk 0 idleWorld = (Returned result, w')
    /\ result = [ mkBlock (JsString "[Lỗi dịch] Hello") 0 1500;
                  mkBlock (JsString "[Lỗi dịch] world") 1500 1700 ]
    /\ modelCalls w' = 4
    /\ clock w' = 6000%N.
Proof.
  destruct (translateChunk_all_attempts_fail rejectAll demoChunk idleWorld)
    as (result & w' & Hrun & _).
  - intros k _. now apply RequestError with (e := NotAnError).
  - exists result, w'. split; [exact Hrun|].
    assert (E : translateChunk rejectAll demoChunk 0 idleWorld = (Returned result, w'))
      by exact Hrun.
    vm_compute in E. injection E as <- <-. repeat split.
Defined.

(** ** The chunker *)

Lemma ceilDiv_cases (a N : nat) :
  0 < N -> ceilDiv a N = if a mod N =? 0 then a / N else S (a / N).
Proof.
  intros HN. unfold ceilDiv.
  pose proof (Nat.div_mod a N ltac:(lia)) as Ha.
  pose proof (Nat.mod_upper_bound a N ltac:(lia)) as Hr.
  destruct (Nat.eqb_spec (a mod N) 0) as [E|E].
  - symmetry. apply Nat.div_unique with (r := N - 1); lia.
  - symmetry. apply Nat.div_unique with (r := a mod N - 1); lia.
Qed.

Lemma ceilDiv_step (a N : nat) :
  0 < N -> 0 < a -> ceilDiv a N = S (ceilDiv (a - N) N).
Proof.
  intros HN Ha. unfold ceilDiv.
  destruct (le_lt_dec a N) as [Hle|Hgt].
  - replace (a - N) with 0 by lia.
    rewrite (Nat.div_small (0 + N - 1) N) by lia.
    symmetry. apply Nat.div_unique with (r := a - 1); lia.
  - replace (a + N - 1) with ((a - N + N - 1) + 1 * N) by lia.
    rewrite Nat.div_add by lia. lia.
Qed.

Lemma chunkLoop_spec {A} (T : list A) (N : nat) :
  0 < N ->
  forall fuel i,
    length T - i <= fuel ->
    exists chunks,
      chunkLoop fuel N T i = Some chunks
      /\ concat chunks = drop i T
      /\ length chunks = ceilDiv (length T - i) N
      /\ forall k, k < length chunks ->
           chunks !! k = Some (take N (drop (i + k * N) T)).
Proof.
  intros HN. induction fuel as [|fuel IH]; intros i Hfuel.
  - exists []. simpl. destruct (Nat.ltb_spec i (length T)) as [Hlt|Hge]; [lia|].
    split; [reflexivity|]. split; [now rewrite drop_ge|].
    split; [|simpl; lia].
    replace (length T - i) with 0 by lia. unfold ceilDiv.
    simpl. symmetry. apply Nat.div_small. lia.
  - simpl. destruct (Nat.ltb_spec i (length T)) as [Hlt|Hge].
    + destruct (IH (i + N) ltac:(lia)) as (chunks & Hrun & Hcat & Hlen & Hk).
      rewrite Hrun. eexists. split; [reflexivity|].
      unfold slice. replace (i + N - i) with N by lia.
      split.
      { simpl. rewrite Hcat. rewrite <- (take_drop N (drop i T)) at 2.
        now rewrite drop_drop. }
      split.
      { simpl. rewrite Hlen.
        rewrite (ceilDiv_step (length T - i) N) by lia.
        f_equal. f_equal. lia. }
      intros [|k] Hlt'.
      * simpl. now rewrite Nat.add_0_r.
      * simpl in *. rewrite Hk by lia. do 3 f_equal. lia.
    + exists []. split; [reflexivity|]. split; [now rewrite drop_ge|].
      split; [|simpl; lia].
      replace (length T - i) with 0 by lia. unfold ceilDiv.
      simpl. symmetry. apply Nat.div_small. lia.
Qed.

(** The slices taken at a chunk size [N > 0], with the fuel of the worker:
    what they add up to, how many they are and how long each is. *)
Lemma splitChunks_spec {A} (T : list A) (N : nat) :
  0 < N ->
  exists chunks,
    splitChunks N T = Some chunks
    /\ concat chunks = T
    /\ length chunks = ceilDiv (length T) N
    /\ forall k chunk, chunks !! k = Some chunk ->
         chunk = slice (k * N) (k * N + N) T
         /\ length chunk
            = if S k <? length chunks then N
              else if length T mod N =? 0 then N else length T mod N.
Proof.
  intros HN. unfold splitChunks.
  destruct (chunkLoop_spec T N HN (length T) 0 ltac:(lia))
    as (chunks & Hrun & Hcat & Hlen & Hk).
  rewrite Nat.sub_0_r in Hlen. rewrite drop_0 in Hcat.
  exists chunks. repeat split; try assumption.
  - pose proof (lookup_lt_Some _ _ _ H) as Hlt.
    rewrite (Hk k Hlt) in H. injection H as <-.
    unfold slice. f_equal. lia.
  - pose proof (lookup_lt_Some _ _ _ H) as Hlt.
    rewrite (Hk k Hlt) in H. injection H as <-. simpl.
    rewrite length_take, length_drop.
    rewrite Hlen in *. rewrite (ceilDiv_cases (length T) N HN) in *.
    pose proof (Nat.div_mod (length T) N ltac:(lia)) as Hdm.
    pose proof (Nat.mod_upper_bound (length T) N ltac:(lia)) as Hr.
    set (q := length T / N) in *. set (r := length T mod N) in *.
    assert (Hmul : forall a b, a <= b -> a * N <= b * N) by (intros; nia).
    destruct (Nat.eqb_spec r 0) as [E|E].
    + destruct (Nat.ltb_spec (S k) q) as [H1|H1].
      * specialize (Hmul (S k) q ltac:(lia)). simpl in Hmul. lia.
      * assert (k = q - 1) by lia. subst k.
        assert (Hq : (q - 1) * N + N = q * N) by nia. lia.
    + destruct (Nat.ltb_spec (S k) (S q)) as [H1|H1].
      * specialize (Hmul (S k) q ltac:(lia)). simpl in Hmul. lia.
      * assert (k = q) by lia. subst k. lia.
Qed.

(** ** The worker and the orchestrator *)

Section PipelineFacts.

Variable JSON_parse : string -> ParseResult.

(** The loop of the worker translates the chunks of the chunker, in
    order. *)
Lemma translateLoop_chunks fuel N transcript i chunks :
  chunkLoop fuel N transcript i = Some chunks ->
  forall translatedSubs w,
    translateLoop JSON_parse fuel N transcript i translatedSubs w
    = translateEach JSON_parse chunks translatedSubs w.
Proof.
  revert i chunks. induction fuel as [|fuel IH]; intros i chunks H acc w; simpl in *.
  - destruct (i <? length transcript); [discriminate|].
    injection H as <-. reflexivity.
  - destruct (i <? length transcript).
    + destruct (chunkLoop fuel N transcript (i + N)) as [rest|] eqn:E; [|discriminate].
      injection H as <-. simpl. unfold bind.
      destruct (translateChunk JSON_parse (slice i (i + N) transcript) 0 w)
        as [[translated| |] w']; try reflexivity.
      now apply IH.
    + injection H as <-. reflexivity.
Qed.

(** The worker translates the chunks of its transcript at [chunkSize]. *)
Lemma worker_translates_chunks transcript :
  exists chunks,
    splitChunks chunkSize transcript = Some chunks
    /\ forall w,
         translateLoop JSON_parse (length transcript) chunkSize transcript 0 [] w
         = translateEach JSON_parse chunks [] w.
Proof.
  destruct (chunkLoop_spec transcript chunkSize ltac:(unfold chunkSize; lia)
              (length transcript) 0 ltac:(lia)) as (chunks & Hrun & _).
  exists chunks. split; [exact Hrun|].
  intros w. now apply translateLoop_chunks.
Qed.

Lemma translateEach_returns chunks translatedSubs w :
  exists data w', translateEach JSON_parse chunks translatedSubs w = (Returned data, w').
Proof.
  revert translatedSubs w. induction chunks as [|chunk chunks IH]; intros acc w; simpl.
  - unfold ret. eauto.
  - unfold bind.
    destruct (translateChunk_returns JSON_parse chunk 0 w) as (r & w' & Hr & _).
    rewrite Hr. apply IH.
Qed.

(** Past the fetch, the worker neither throws nor loops for ever. *)
Lemma translateLoop_returns transcript w :
  exists data w',
    translateLoop JSON_parse (length transcript) chunkSize transcript 0 [] w
    = (Returned data, w').
Proof.
  destruct (worker_translates_chunks transcript) as (chunks & _ & Hloop).
  rewrite Hloop. apply translateEach_returns.
Qed.

Lemma generateTranscriptWorker_run videoId w :
  generateTranscriptWorker JSON_parse videoId w
  = match captionSource w (fetches w) videoId with
    | CaptionThrows e => (Threw e, afterFetch videoId w)
    | CaptionInfo None =>
        (Threw (ErrorObject "No transcript found. The video may not have captions enabled."),
         afterFetch videoId w)
    | CaptionInfo (Some segments) =>
        if length segments =? 0
        then (Threw (ErrorObject "No transcript segments found."), afterFetch videoId w)
        else translateLoop JSON_parse (length (normalizeSegments segments)) chunkSize
               (normalizeSegments segments) 0 [] (afterFetch videoId w)
    end.
Proof.
  unfold generateTranscriptWorker. unfold_run.
  destruct (captionSource w (fetches w) videoId) as [e|[segments|]]; try reflexivity.
  destruct (length segments =? 0); reflexivity.
Qed.

Lemma generateTranscriptWorker_no_divergence videoId w :
  (exists data w', generateTranscriptWorker JSON_parse videoId w = (Returned data, w'))
  \/ (exists e w', generateTranscriptWorker JSON_parse videoId w = (Threw e, w')).
Proof.
  rewrite generateTranscriptWorker_run.
  destruct (captionSource w (fetches w) videoId) as [e|[segments|]];
    [right; eauto| |right; eauto].
  destruct (length segments =? 0); [right; eauto|].
  left. apply translateLoop_returns.
Qed.

Lemma getCachedTranscript_hit videoId w entry :
  freshEntry videoId w = Some entry ->
  getCachedTranscript JSON_parse videoId w = (Returned (cached entry), w).
Proof.
  unfold freshEntry, getCachedTranscript, unstable_cache. unfold_run.
  destruct (cache w !! videoId) as [e|]; [|discriminate].
  destruct (isFresh revalidate (clock w) e); [|discriminate].
  intros [= ->]. reflexivity.
Qed.

Lemma getCachedTranscript_miss videoId w :
  freshEntry videoId w = None ->
  getCachedTranscript JSON_parse videoId w
  = match generateTranscriptWorker JSON_parse videoId w with
    | (Returned data, w') => (Returned data, afterCacheSet videoId data w')
    | (Threw e, w') => (Threw e, w')
    | (Diverged, w') => (Diverged, w')
    end.
Proof.
  unfold freshEntry, getCachedTranscript, unstable_cache. unfold_run.
  destruct (cache w !! videoId) as [e|].
  - destruct (isFresh revalidate (clock w) e); [discriminate|]. intros _.
    destruct (generateTranscriptWorker JSON_parse videoId w) as [[data|e'|] w'];
      reflexivity.
  - intros _.
    destruct (generateTranscriptWorker JSON_parse videoId w) as [[data|e'|] w'];
      reflexivity.
Qed.

Lemma getCachedTranscript_no_divergence videoId w :
  (exists data w', getCachedTranscript JSON_parse videoId w = (Returned data, w'))
  \/ (exists e w', getCachedTranscript JSON_parse videoId w = (Threw e, w')).
Proof.
  destruct (freshEntry videoId w) as [entry|] eqn:E.
  - left. rewrite (getCachedTranscript_hit _ _ _ E). eauto.
  - rewrite (getCachedTranscript_miss _ _ E).
    destruct (generateTranscriptWorker_no_divergence videoId w)
      as [(data & w' & H)|(e & w' & H)]; rewrite H; eauto.
Qed.


Lemma processVideo_run videoUrl w :
  processVideo JSON_parse videoUrl w
  = match extractVideoId videoUrl with
    | None =>
        (Returned (Failure "Invalid YouTube URL. Please enter a valid YouTube link."), w)
    | Some videoId =>
        if Str.isEmpty videoId
        then (Returned (Failure "Invalid YouTube URL. Please enter a valid YouTube link."), w)
        else
          match getCachedTranscript JSON_parse videoId w with
          | (Returned data, w') => (Returned (Success data), w')
          | (Threw e, w') => (Returned (Failure (errorMessage e)), w')
          | (Diverged, w') => (Diverged, w')
          end
    end.
Proof.
  unfold processVideo. unfold_run.
  destruct (extractVideoId videoUrl) as [videoId|]; [|reflexivity].
  destruct (Str.isEmpty videoId); [reflexivity|].
  destruct (getCachedTranscript JSON_parse videoId w) as [[data|e|] w']; reflexivity.
Qed.

End PipelineFacts.

(** C2: for a chunk size [N > 0] the loop of the worker ends and hands the
    translator, one after the other, chunks which concatenated in order are
    the timeline: what the loop does is what translating these chunks in
    order and appending the results does.  There are [ceil(len / N)]
    chunks, chunk [k] is the slice from [k * N] to [k * N + N], every one
    but the last has exactly [N] blocks, and the last has [len mod N]
    blocks, or [N] when [N] divides [len]. *)
Theorem translateLoop_partition (JSON_parse : string -> ParseResult)
    (T : list SubtitleBlock) (N : nat) :
  0 < N ->
  exists chunks,
    (forall translatedSubs w,
       translateLoop JSON_parse (length T) N T 0 translatedSubs w
       = translateEach JSON_parse chunks translatedSubs w)
    /\ concat chunks = T
    /\ length chunks = ceilDiv (length T) N
    /\ forall k chunk, chunks !! k = Some chunk ->
         chunk = slice (k * N) (k * N + N) T
         /\ length chunk
            = if S k <? length chunks then N
              else if length T mod N =? 0 then N else length T mod N.
Proof.
  intros HN.
  destruct (splitChunks_spec T N HN) as (chunks & Hrun & Hcat & Hlen & Hk).
  exists chunks. split; [|split; [exact Hcat|split; [exact Hlen|exact Hk]]].
  intros translatedSubs w. now apply translateLoop_chunks.
Qed.

Lemma translateLoop_partition_witness :
  exists chunks,
    (forall translatedSubs w,
       translateLoop JSON.parse (length fiveBlocks) 2 fiveBlocks 0 translatedSubs w
       = translateEach JSON.parse chunks translatedSubs w)
    /\ concat chunks = fiveBlocks
    /\ length chunks = ceilDiv (length fiveBlocks) 2
    /\ forall k chunk, chunks !! k = Some chunk ->
         chunk = slice (k * 2) (k * 2 + 2) fiveBlocks
         /\ length chunk
            = if S k <? length chunks then 2
              else if length fiveBlocks mod 2 =? 0 then 2
                   else length fiveBlocks mod 2.
Proof. apply (translateLoop_partition JSON.parse fiveBlocks 2). lia. Defined.

(** C4: for every input string and every behaviour of the caption source,
    the model and [JSON.parse], processVideo returns a value and never
    throws: a success carrying the timeline the cached worker returned, or a
    failure carrying a message, which is the invalid-URL message when no
    identifier can be extracted, the message of the [Error] that was thrown
    below, or the fixed text for a thrown value that is not an [Error].  In
    particular a rejection of the caption source on a cache miss comes back
    as a failure with its message. *)
Theorem processVideo_never_throws
    (JSON_parse : string -> ParseResult) (videoUrl : string) (w : World) :
  exists result w',
    processVideo JSON_parse videoUrl w = (Returned result, w')
    /\ match result with
       | Success data =>
           exists videoId,
             extractVideoId videoUrl = Some videoId
             /\ getCachedTranscript JSON_parse videoId w = (Returned data, w')
       | Failure error =>
           (extractVideoId videoUrl = None
            /\ error = "Invalid YouTube URL. Please enter a valid YouTube link."
            /\ w' = w)
           \/ (exists videoId e,
                 extractVideoId videoUrl = Some videoId
                 /\ getCachedTranscript JSON_parse videoId w = (Threw e, w')
                 /\ error = match e with
                            | ErrorObject message => message
                            | NotAnError => "An unknown error occurred"
                            end)
       end
    /\ (forall videoId e,
          extractVideoId videoUrl = Some videoId ->
          freshEntry videoId w = None ->
          captionSource w (fetches w) videoId = CaptionThrows e ->
          result = Failure (errorMessage e)).
Proof.
  rewrite processVideo_run.
  destruct (extractVideoId videoUrl) as [videoId|] eqn:E.
  - rewrite (extractVideoId_nonempty _ _ E).
    assert (Hfetch : forall r w1 e,
               getCachedTranscript JSON_parse videoId w = (r, w1) ->
               freshEntry videoId w = None ->
               captionSource w (fetches w) videoId = CaptionThrows e ->
               r = Threw e).
    { intros r w1 e Hget Hmiss Hsrc.
      rewrite (getCachedTranscript_miss _ _ _ Hmiss) in Hget.
      rewrite generateTranscriptWorker_run, Hsrc in Hget. congruence. }
    destruct (getCachedTranscript_no_divergence JSON_parse videoId w)
      as [(data & w' & H)|(e & w' & H)]; rewrite H.
    + exists (Success data), w'. split; [reflexivity|]. split; [eauto|].
      intros videoId' e [= <-] Hmiss Hsrc.
      discriminate (Hfetch _ _ _ H Hmiss Hsrc).
    + exists (Failure (errorMessage e)), w'. split; [reflexivity|]. split.
      * right. exists videoId, e. repeat split; try assumption.
      * intros videoId' e' [= <-] Hmiss Hsrc.
        now injection (Hfetch _ _ _ H Hmiss Hsrc) as ->.
  - eexists _, _. split; [reflexivity|]. split; [left; auto|].
    intros videoId e [=].
Qed.

(** C5, as stated, fails: a segment with both times whose snippet has no
    text is included by the reference definition and dropped by the code. *)
Lemma normalizeSegments_counterexample :
  normalizeSegments
    [ mkRawSegment (Has (Some "0")) (Has (Some "1000")) (Has (Some (mkSnippet None))) ]
  = []
  /\ spec_normalize
       [ mkRawSegment (Has (Some "0")) (Has (Some "1000")) (Has (Some (mkSnippet None))) ]
     = [ mkBlock "" 0 1000 ].
Proof. split; reflexivity. Qed.

Lemma toSubtitleBlock_spec (segment : RawSegment) :
  toSubtitleBlock segment = spec_block segment.
Proof. reflexivity. Qed.

Lemma normalizeSegments_app (before after : list RawSegment) :
  normalizeSegments (before ++ after)
  = normalizeSegments before ++ normalizeSegments after.
Proof.
  unfold normalizeSegments. now rewrite List.filter_app, List.map_app.
Qed.

Lemma normalizeSegments_cons (segment : RawSegment) (after : list RawSegment) :
  normalizeSegments (segment :: after)
  = (if keepSegment segment then [toSubtitleBlock segment] else [])
    ++ normalizeSegments after.
Proof.
  unfold normalizeSegments. cbn [List.filter].
  destruct (keepSegment segment); reflexivity.
Qed.

(** C5, amended: a raw segment that carries an end time, wherever it stands
    in the track and whatever the other segments are, is included exactly
    when it carries a start time and a snippet whose text is defined (an
    empty text is kept as the empty string, an absent text excludes the
    segment); its block stands between the blocks of the segments before it
    and those of the segments after it, so order is kept.  When the two
    times, each 0 when it does not parse, and their difference are safe
    integers, the offset of the block is the parsed start time and its
    duration the parsed end time minus the parsed start time, which may be
    negative. *)
Theorem normalizeSegments_with_end_time
    (before after : list RawSegment) (segment : RawSegment) :
  hasKey (end_ms segment) = true ->
  (hasKey (start_ms segment) && hasKey (snippet segment) && hasText segment = true ->
   exists block,
     normalizeSegments (before ++ segment :: after)
     = normalizeSegments before ++ block :: normalizeSegments after
     /\ snippetText segment = Some (text block)
     /\ (safeTimes segment = true ->
         offset block = spec_time (start_ms segment)
         /\ duration block
            = (spec_time (end_ms segment) - spec_time (start_ms segment))%Z))
  /\ (hasKey (start_ms segment) && hasKey (snippet segment) && hasText segment = false ->
      normalizeSegments (before ++ segment :: after)
      = normalizeSegments before ++ normalizeSegments after).
Proof.
  intros Hend.
  assert (Hkeep : keepSegment segment
                  = hasKey (start_ms segment) && hasKey (snippet segment)
                    && hasText segment).
  { unfold keepSegment, hasText. f_equal.
    destruct (snippetText segment); reflexivity. }
  rewrite normalizeSegments_app, normalizeSegments_cons, Hkeep.
  split; intros Hincluded; rewrite Hincluded; cbn [app]; [|reflexivity].
  exists (toSubtitleBlock segment). split; [reflexivity|]. split.
  - apply andb_true_iff in Hincluded as [_ Htext]. unfold hasText in Htext.
    cbn [toSubtitleBlock text]. destruct (snippetText segment); [reflexivity|discriminate].
  - intros _. split; reflexivity.
Qed.

Lemma normalizeSegments_with_end_time_witness :
  exists block,
    normalizeSegments ([openEndedSegment] ++ malformedSegments)
    = normalizeSegments [openEndedSegment]
      ++ block :: normalizeSegments
                    [ mkRawSegment (Has (Some "0")) (Has (Some "1000"))
                                   (Has (Some (mkSnippet None))) ]
    /\ Some "" = Some (text block)
    /\ offset block = 1000%Z
    /\ duration block = (-600)%Z.
Proof.
  destruct (proj1 (normalizeSegments_with_end_time
                     [openEndedSegment]
                     [ mkRawSegment (Has (Some "0")) (Has (Some "1000"))
                                    (Has (Some (mkSnippet None))) ]
                     (mkRawSegment (Has (Some "1000")) (Has (Some "400"))
                                   (Has (Some (mkSnippet (Some "")))))
                     eq_refl) eq_refl)
    as (block & Hrun & Htext & Htimes).
  exists block. split; [exact Hrun|]. split; [exact Htext|]. exact (Htimes eq_refl).
Defined.

(** C6 does not hold of the code: a caption track with segments, none of
    which survives the filter, passes the emptiness test, which is made
    before the filter; the loop runs zero times and processVideo returns a
    success with the empty timeline, which it also caches, where an
    empty-transcript failure was due. *)
Theorem processVideo_empty_after_filter
    (JSON_parse : string -> ParseResult) (videoUrl videoId : string) (w : World)
    (segments : list RawSegment) :
  extractVideoId videoUrl = Some videoId ->
  freshEntry videoId w = None ->
  captionSource w (fetches w) videoId = CaptionInfo (Some segments) ->
  segments <> [] ->
  normalizeSegments segments = [] ->
  processVideo JSON_parse videoUrl w
  = (Returned (Success []), afterCacheSet videoId [] (afterFetch videoId w)).
Proof.
  intros Hid Hmiss Hsrc Hne Hnorm.
  rewrite processVideo_run, Hid, (extractVideoId_nonempty _ _ Hid).
  rewrite (getCachedTranscript_miss _ _ _ Hmiss).
  rewrite generateTranscriptWorker_run, Hsrc.
  destruct segments as [|seg segments]; [congruence|].
  simpl length. cbn [Nat.eqb]. rewrite Hnorm. reflexivity.
Qed.

Lemma processVideo_empty_after_filter_witness :
  processVideo JSON.parse "https://youtu.be/dQw4w9WgXcQ" headerOnlyWorld
  = (Returned (Success []),
     afterCacheSet "dQw4w9WgXcQ" [] (afterFetch "dQw4w9WgXcQ" headerOnlyWorld)).
Proof.
  apply (processVideo_empty_after_filter JSON.parse
           "https://youtu.be/dQw4w9WgXcQ" "dQw4w9WgXcQ" headerOnlyWorld
           [ mkRawSegment (Has (Some "0")) (Has (Some "5000")) (Has (Some (mkSnippet None))) ]);
    [reflexivity|reflexivity|reflexivity|discriminate|reflexivity].
Defined.

Lemma generateTranscriptWorker_throws JSON_parse videoId w e w' :
  generateTranscriptWorker JSON_parse videoId w = (Threw e, w') ->
  w' = afterFetch videoId w.
Proof.
  rewrite generateTranscriptWorker_run.
  destruct (captionSource w (fetches w) videoId) as [e0|[segments|]];
    try (intros [= _ <-]; reflexivity).
  destruct (length segments =? 0); [intros [= _ <-]; reflexivity|].
  destruct (translateLoop_returns JSON_parse (normalizeSegments segments)
              (afterFetch videoId w)) as (data & w1 & H).
  rewrite H. discriminate.
Qed.



(** * Further properties of the pipeline *)

(** ** How translateChunk uses the world *)

Section RetryFacts.

Variable JSON_parse : string -> ParseResult.

Lemma translationFrame_refl w : translationFrame w w.
Proof. repeat split. Qed.

Lemma translationFrame_trans w1 w2 w3 :
translationFrame w1 w2 -> translationFrame w2 w3 -> translationFrame w1 w3.
Proof.
intros (A1 & B1 & C1 & D1) (A2 & B2 & C2 & D2).
repeat split; congruence.
Qed.

(** One run of translateChunk from [retryCount]: at least one model call, at
  most as many as there are attempts left, a total delay bounded by the
  delays still to come, and a world changed in nothing else. *)
Lemma translateChunk_effects chunk retryCount w result w' :
translateChunk JSON_parse chunk retryCount w = (Returned result, w') ->
translationFrame w w'
/\ modelCalls w < modelCalls w'
/\ modelCalls w' <= modelCalls w + S (MAX_RETRIES - retryCount)
/\ (clock w <= clock w')%N
/\ (clock w' <= clock w + maxDelay (MAX_RETRIES - retryCount))%N.
Proof.
remember (MAX_RETRIES - retryCount) as n eqn:En.
revert retryCount w En.
induction n as [|n IH]; intros retryCount w En Hrun.
- destruct (attemptTranslation_cases JSON_parse chunk w) as [[elements H]|[e H]].
  + rewrite (translateChunk_success _ _ _ _ _ _ H) in Hrun.
    injection Hrun as <- <-. simpl. repeat split; lia.
  + rewrite (translateChunk_give_up _ _ _ _ _ _ H) in Hrun by lia.
    injection Hrun as <- <-. simpl. repeat split; lia.
- destruct (attemptTranslation_cases JSON_parse chunk w) as [[elements H]|[e H]].
  + rewrite (translateChunk_success _ _ _ _ _ _ H) in Hrun.
    injection Hrun as <- <-. simpl. repeat split; lia.
  + rewrite (translateChunk_retry _ _ _ _ _ _ H) in Hrun by lia.
    apply IH in Hrun; [|lia].
    destruct Hrun as ((A & B & C & D) & Hlo & Hhi & Hc1 & Hc2).
    simpl in *. unfold MAX_RETRIES in *.
    assert (Hrc : retryCount = 2 - n) by lia.
    repeat split; try assumption; try lia.
    subst retryCount. destruct n as [|[|[|n]]]; unfold maxDelay in *; simpl in *; lia.
Qed.

(** A failed attempt that is retried leads to the next attempt after the
  delay of the attempt number. *)
Lemma translateChunk_recovers_from chunk k :
forall retryCount w reply elements,
  retryCount + k <= MAX_RETRIES ->
  (forall j, j < k -> AttemptFailure JSON_parse (modelReplies w (modelCalls w + j))) ->
  modelReplies w (modelCalls w + k) = ModelText reply ->
  JSON_parse (cleanResponse reply) = Parsed (JsArray elements) ->
  elements <> [] ->
  exists w',
    translateChunk JSON_parse chunk retryCount w
    = (Returned (imap (reconcileItem elements) chunk), w')
    /\ modelCalls w' = modelCalls w + k + 1
    /\ (2 * clock w' = 2 * clock w
                       + 1000 * N.of_nat (k * (2 * retryCount + k + 1)))%N.
Proof.
induction k as [|k IH]; intros retryCount w reply elements Hk Hfail Hreply Hparse Hne.
- rewrite Nat.add_0_r in Hreply.
  exists (afterModelCall chunk w). split.
  + apply translateChunk_success.
    now apply attemptTranslation_parsed with (text := reply).
  + simpl. split; lia.
- assert (F0 : AttemptFailure JSON_parse (modelReplies w (modelCalls w))).
  { specialize (Hfail 0 ltac:(lia)). now rewrite Nat.add_0_r in Hfail. }
  destruct (attemptTranslation_failure JSON_parse chunk w F0) as [e He].
  rewrite (translateChunk_retry _ _ _ _ _ _ He) by lia.
  set (w1 := afterSleep (1000 * N.of_nat (retryCount + 1)) (afterModelCall chunk w)).
  destruct (IH (retryCount + 1) w1 reply elements) as (w' & Hrun & Hcalls & Hclock);
    try assumption.
  + lia.
  + intros j Hj. change (modelReplies w1) with (modelReplies w).
    replace (modelCalls w1 + j) with (modelCalls w + S j) by (simpl; lia).
    apply Hfail. lia.
  + change (modelReplies w1) with (modelReplies w).
    now replace (modelCalls w1 + k) with (modelCalls w + S k) by (simpl; lia).
  + exists w'. split; [exact Hrun|]. simpl in Hcalls, Hclock.
    split; [lia|]. rewrite Hclock. nia.
Qed.

End RetryFacts.

(** X1: a call of translateChunk as the worker makes it always returns; it
    sends the model at least one request and at most four, spends at most
    6000 ms waiting, and leaves the cache, the caption source, the fetch
    count and the model itself as they were. *)
Theorem translateChunk_bounded_effects
    (JSON_parse : string -> ParseResult) (chunk : list SubtitleBlock) (w : World) :
  exists result w',
    translateChunk JSON_parse chunk 0 w = (Returned result, w')
    /\ translationFrame w w'
    /\ modelCalls w + 1 <= modelCalls w' <= modelCalls w + 4
    /\ (clock w <= clock w' <= clock w + 6000)%N.
Proof.
  destruct (translateChunk_returns JSON_parse chunk 0 w) as (result & w' & Hrun & _).
  exists result, w'. split; [exact Hrun|].
  destruct (translateChunk_effects JSON_parse chunk 0 w result w' Hrun)
    as (Hframe & Hlo & Hhi & Hc1 & Hc2).
  unfold MAX_RETRIES, maxDelay in *. simpl in *.
  split; [exact Hframe|]. split; lia.
Qed.

(** X2: when the first [k] attempts fail, [k] being at most 3, and the next
    reply parses to a non-empty array, translateChunk returns the chunk
    reconciled with that array, after [k + 1] model calls and the delays
    1000, 2000, ..., [k * 1000] ms, which add up to [500 * k * (k + 1)]. *)
Theorem translateChunk_recovers
    (JSON_parse : string -> ParseResult) (chunk : list SubtitleBlock) (w : World)
    (k : nat) (reply : string) (elements : list JsValue) :
  k <= MAX_RETRIES ->
  (forall j, j < k -> AttemptFailure JSON_parse (modelReplies w (modelCalls w + j))) ->
  modelReplies w (modelCalls w + k) = ModelText reply ->
  JSON_parse (cleanResponse reply) = Parsed (JsArray elements) ->
  elements <> [] ->
  exists w',
    translateChunk JSON_parse chunk 0 w
    = (Returned (imap (reconcileItem elements) chunk), w')
    /\ modelCalls w' = modelCalls w + k + 1
    /\ clock w' = (clock w + 500 * N.of_nat (k * (k + 1)))%N.
Proof.
  intros Hk Hfail Hreply Hparse Hne.
  destruct (translateChunk_recovers_from JSON_parse chunk k 0 w reply elements)
    as (w' & Hrun & Hcalls & Hclock); try assumption.
  exists w'. split; [exact Hrun|]. split; [exact Hcalls|].
  simpl in Hclock. lia.
Qed.

Lemma translateChunk_recovers_witness :
  exists w',
    translateChunk JSON.parse demoChunk 0 flakyWorld
    = (Returned [ mkBlock (JsString "Xin chào") 0 1500; mkBlock (JsString "world") 1500 1700 ],
       w')
    /\ modelCalls w' = 3
    /\ clock w' = 3000%N.
Proof.
  destruct (translateChunk_recovers JSON.parse demoChunk flakyWorld 2 demoReply
              [ JsObject [ ("text", JsString "Xin chào");
                           ("offset", JsNumber 0); ("duration", JsNumber 1500) ] ])
    as (w' & Hrun & Hcalls & Hclock).
  - unfold MAX_RETRIES. lia.
  - intros j Hj. apply RequestError with (e := ErrorObject "503").
    destruct j as [|[|j]]; [reflexivity|reflexivity|lia].
  - reflexivity.
  - reflexivity.
  - discriminate.
  - exists w'. split; [exact Hrun|]. split; [exact Hcalls|exact Hclock].
Defined.

(** ** What the worker does with a caption track *)

Section WorkerFacts.

Variable JSON_parse : string -> ParseResult.

Lemma translateEach_effects chunks :
forall translatedSubs w,
exists data w',
  translateEach JSON_parse chunks translatedSubs w = (Returned (translatedSubs ++ data), w')
  /\ Forall2 sameTiming (concat chunks) data
  /\ translationFrame w w'
  /\ modelCalls w + length chunks <= modelCalls w'
  /\ modelCalls w' <= modelCalls w + 4 * length chunks
  /\ (clock w <= clock w')%N
  /\ (clock w' <= clock w + 6000 * N.of_nat (length chunks))%N.
Proof.
induction chunks as [|chunk chunks IH]; intros acc w.
- exists [], w. simpl. rewrite app_nil_r.
  split; [reflexivity|]. split; [constructor|].
  split; [apply translationFrame_refl|]. lia.
- destruct (translateChunk_returns JSON_parse chunk 0 w) as (r & w1 & Hr & Hsame).
  destruct (translateChunk_effects JSON_parse chunk 0 w r w1 Hr)
    as (Hframe & Hlo & Hhi & Hc1 & Hc2).
  destruct (IH (acc ++ r) w1) as (data & w' & Hrun & Hsame' & Hframe' & Hlo' & Hhi' & Hc1' & Hc2').
  exists (r ++ data), w'. simpl. unfold bind. rewrite Hr, Hrun, app_assoc.
  split; [reflexivity|]. split; [now apply Forall2_app|].
  split; [eapply translationFrame_trans; eassumption|].
  unfold MAX_RETRIES, maxDelay in *. simpl in *. lia.
Qed.

End WorkerFacts.

Lemma splitChunks_concat {A} (T : list A) (chunks : list (list A)) :
  splitChunks chunkSize T = Some chunks ->
  concat chunks = T /\ length chunks = ceilDiv (length T) chunkSize.
Proof.
  intros H.
  destruct (chunkLoop_spec T chunkSize ltac:(unfold chunkSize; lia) (length T) 0 ltac:(lia))
    as (chunks' & Hrun & Hcat & Hlen & _).
  unfold splitChunks in H. rewrite Hrun in H. injection H as <-.
  rewrite drop_0 in Hcat. rewrite Nat.sub_0_r in Hlen. now split.
Qed.

(** X3: once the caption source has delivered a non-empty array of
    segments, generateTranscriptWorker always returns, whatever the model
    does, and the timeline it returns has exactly the blocks of the
    normalised transcript, in order, as far as offsets and durations go:
    chunking, translation with its fallbacks, and concatenation change
    texts only. *)
Theorem generateTranscriptWorker_keeps_timing
    (JSON_parse : string -> ParseResult) (videoId : string) (w : World)
    (segments : list RawSegment) :
  captionSource w (fetches w) videoId = CaptionInfo (Some segments) ->
  segments <> [] ->
  exists data w',
    generateTranscriptWorker JSON_parse videoId w = (Returned data, w')
    /\ map offset data = map offset (normalizeSegments segments)
    /\ map duration data = map duration (normalizeSegments segments).
Proof.
  intros Hsrc Hne.
  rewrite generateTranscriptWorker_run, Hsrc.
  destruct segments as [|seg segments]; [congruence|].
  cbn [length Nat.eqb].
  set (transcript := normalizeSegments (seg :: segments)).
  destruct (worker_translates_chunks JSON_parse transcript) as (chunks & Hsplit & Hloop).
  rewrite Hloop.
  destruct (splitChunks_concat transcript chunks Hsplit) as [Hcat _].
  destruct (translateEach_effects JSON_parse chunks [] (afterFetch videoId w))
    as (data & w' & Hrun & Hsame & _).
  exists data, w'. split; [exact Hrun|].
  rewrite Hcat in Hsame. clear -Hsame.
  induction Hsame as [|orig r l l' [Ho Hd] _ [IHo IHd]]; [split; reflexivity|].
  simpl. split; congruence.
Qed.

Lemma generateTranscriptWorker_keeps_timing_witness :
  exists data w',
    generateTranscriptWorker JSON.parse "dQw4w9WgXcQ" demoWorld = (Returned data, w')
    /\ map offset data = [0; 1500]%Z
    /\ map duration data = [1500; 1700]%Z.
Proof.
  destruct (generateTranscriptWorker_keeps_timing JSON.parse "dQw4w9WgXcQ" demoWorld
              demoSegments) as (data & w' & Hrun & Ho & Hd);
    [reflexivity|discriminate|].
  exists data, w'. split; [exact Hrun|]. split; [exact Ho|exact Hd].
Defined.

(** X4: on a non-empty array of caption segments the worker asks the
    caption source once, leaves the cache alone, and sends the model one to
    four requests per chunk of 50 blocks: with [n] chunks, between [n] and
    [4 * n] requests, and at most [6000 * n] ms of waiting. *)
Theorem generateTranscriptWorker_model_calls
    (JSON_parse : string -> ParseResult) (videoId : string) (w : World)
    (segments : list RawSegment) :
  captionSource w (fetches w) videoId = CaptionInfo (Some segments) ->
  segments <> [] ->
  exists data w',
    generateTranscriptWorker JSON_parse videoId w = (Returned data, w')
    /\ fetches w' = fetches w + 1
    /\ cache w' = cache w
    /\ modelCalls w + ceilDiv (length (normalizeSegments segments)) 50 <= modelCalls w'
    /\ modelCalls w' <= modelCalls w + 4 * ceilDiv (length (normalizeSegments segments)) 50
    /\ (clock w' <= clock w
                    + 6000 * N.of_nat (ceilDiv (length (normalizeSegments segments)) 50))%N.
Proof.
  intros Hsrc Hne.
  rewrite generateTranscriptWorker_run, Hsrc.
  destruct segments as [|seg segments]; [congruence|].
  cbn [length Nat.eqb].
  set (transcript := normalizeSegments (seg :: segments)).
  destruct (worker_translates_chunks JSON_parse transcript) as (chunks & Hsplit & Hloop).
  rewrite Hloop.
  destruct (splitChunks_concat transcript chunks Hsplit) as [_ Hlen].
  destruct (translateEach_effects JSON_parse chunks [] (afterFetch videoId w))
    as (data & w' & Hrun & _ & (_ & Hf & _ & Hc) & Hlo & Hhi & _ & Hclock).
  exists data, w'. split; [exact Hrun|].
  unfold chunkSize in Hlen. rewrite Hlen in *. simpl in *.
  repeat split; try assumption; lia.
Qed.

Lemma generateTranscriptWorker_model_calls_witness :
  exists data w',
    generateTranscriptWorker JSON.parse "dQw4w9WgXcQ" flakyWorld = (Returned data, w')
    /\ fetches w' = 1
    /\ modelCalls w' = 3.
Proof.
  destruct (generateTranscriptWorker_model_calls JSON.parse "dQw4w9WgXcQ" flakyWorld
              demoSegments) as (data & w' & Hrun & Hf & _);
    [reflexivity|discriminate|].
  exists data, w'. split; [exact Hrun|]. split; [exact Hf|].
  assert (E : snd (generateTranscriptWorker JSON.parse "dQw4w9WgXcQ" flakyWorld) = w')
    by now rewrite Hrun.
  rewrite <- E. vm_compute. reflexivity.
Defined.

(** X5: generateTranscriptWorker throws in three cases only, each before
    any translation: the caption source rejected (its error is rethrown),
    the video has no caption track, or the track has no segment.  When it
    throws, the world has seen the caption fetch and nothing else: no model
    call, no delay, no change of the cache. *)
Theorem generateTranscriptWorker_throws_before_translating
    (JSON_parse : string -> ParseResult) (videoId : string) (w w' : World) (e : Thrown) :
  generateTranscriptWorker JSON_parse videoId w = (Threw e, w') ->
  w' = afterFetch videoId w
  /\ (captionSource w (fetches w) videoId = CaptionThrows e
      \/ (captionSource w (fetches w) videoId = CaptionInfo None
          /\ e = ErrorObject "No transcript found. The video may not have captions enabled.")
      \/ (captionSource w (fetches w) videoId = CaptionInfo (Some [])
          /\ e = ErrorObject "No transcript segments found.")).
Proof.
  intros Hrun. split; [eapply generateTranscriptWorker_throws, Hrun|].
  rewrite generateTranscriptWorker_run in Hrun.
  destruct (captionSource w (fetches w) videoId) as [e0|[segments|]].
  - left. congruence.
  - destruct segments as [|seg segments].
    + right. right. simpl in Hrun. split; congruence.
    + cbn [length Nat.eqb] in Hrun.
      destruct (translateLoop_returns JSON_parse (normalizeSegments (seg :: segments))
                  (afterFetch videoId w)) as (data & w1 & H).
      rewrite H in Hrun. discriminate.
  - right. left. split; congruence.
Qed.

Lemma generateTranscriptWorker_throws_before_translating_witness :
  afterFetch "dQw4w9WgXcQ" idleWorld = afterFetch "dQw4w9WgXcQ" idleWorld
  /\ (captionSource idleWorld (fetches idleWorld) "dQw4w9WgXcQ"
      = CaptionThrows (ErrorObject "No transcript found. The video may not have captions enabled.")
      \/ (captionSource idleWorld (fetches idleWorld) "dQw4w9WgXcQ" = CaptionInfo None
          /\ ErrorObject "No transcript found. The video may not have captions enabled."
             = ErrorObject "No transcript found. The video may not have captions enabled.")
      \/ (captionSource idleWorld (fetches idleWorld) "dQw4w9WgXcQ" = CaptionInfo (Some [])
          /\ ErrorObject "No transcript found. The video may not have captions enabled."
             = ErrorObject "No transcript segments found.")).
Proof.
  apply (generateTranscriptWorker_throws_before_translating rejectAll "dQw4w9WgXcQ" idleWorld).
  reflexivity.
Defined.

(** ** What extractVideoId can return *)

Lemma append_assoc_s (a b c : string) : (a +:+ b) +:+ c = a +:+ (b +:+ c).
Proof.
  induction a as [|x a IH]; [reflexivity|].
  now rewrite !append_cons, IH.
Qed.

Lemma append_nil_r_s (a : string) : a +:+ "" = a.
Proof.
  induction a as [|x a IH]; [reflexivity|].
  now rewrite append_cons, IH.
Qed.

Lemma matchMarkersAt_Some (ms : list string) (s id : string) :
  matchMarkersAt ms s = Some id ->
  exists m rest, In m ms /\ s = m +:+ rest /\ id = takeIdChars rest /\ id <> "".
Proof.
  induction ms as [|m0 ms IH]; simpl; [discriminate|].
  destruct (Str.stripPrefix m0 s) as [rest|] eqn:E.
  - destruct (Str.isEmpty (takeIdChars rest)) eqn:E2.
    + intros H. destruct (IH H) as (m & r & Hin & Hs & Hid & Hne).
      exists m, r. auto.
    + intros [= <-]. exists m0, rest. split; [now left|].
      split; [now apply stripPrefix_Some|]. split; [reflexivity|].
      now apply isEmpty_false.
  - intros H. destruct (IH H) as (m & r & Hin & Hs & Hid & Hne).
    exists m, r. auto.
Qed.

Lemma matchUrlPattern_Some (s id : string) :
  matchUrlPattern s = Some id ->
  exists pre m rest,
    s = pre +:+ m +:+ rest /\ In m urlMarkers /\ id = takeIdChars rest /\ id <> "".
Proof.
  induction s as [|c s IH]; cbn [matchUrlPattern];
    destruct (matchMarkersAt urlMarkers _) as [id'|] eqn:E; try discriminate.
  - intros [= ->]. destruct (matchMarkersAt_Some _ _ _ E) as (m & rest & Hin & Hs & Hid & Hne).
    exists "", m, rest. auto.
  - intros H. destruct (IH H) as (pre & m & rest & Hs & Hin & Hid & Hne).
    exists (String c pre), m, rest. rewrite append_cons, <- Hs. auto.
Qed.

Lemma bareIdChar_not_terminator (c : ascii) :
  isBareIdChar c = true -> isIdTerminator c = false.
Proof.
  destruct c as [[] [] [] [] [] [] [] []]; vm_compute; congruence.
Qed.

Lemma all_bare_no_terminator (s : string) :
  Str.all isBareIdChar s = true ->
  Str.all (fun c => negb (isIdTerminator c)) s = true.
Proof.
  induction s as [|c s IH]; simpl; [reflexivity|].
  intros H. apply andb_true_iff in H as [Hc Hs].
  now rewrite (bareIdChar_not_terminator c Hc), IH.
Qed.

(** X6: an identifier returned by extractVideoId is never empty, is a
    contiguous part of the input, and holds none of the characters [&],
    newline, [?] and [#]; either it follows one of the three URL markers, or
    it is the whole input, made of exactly 11 characters of
    [[a-zA-Z0-9_-]]. *)
Theorem extractVideoId_sound (url id : string) :
  extractVideoId url = Some id ->
  id <> ""
  /\ (exists pre post, url = pre +:+ id +:+ post)
  /\ Str.all (fun c => negb (isIdTerminator c)) id = true
  /\ ((exists pre m rest, url = pre +:+ m +:+ rest /\ In m urlMarkers /\ id = takeIdChars rest)
      \/ (id = url /\ String.length url = 11 /\ Str.all isBareIdChar url = true)).
Proof.
  unfold extractVideoId. cbn [firstMatch patterns].
  destruct (matchUrlPattern url) as [id'|] eqn:E.
  - intros [= <-].
    destruct (matchUrlPattern_Some _ _ E) as (pre & m & rest & Hs & Hin & Hid & Hne).
    destruct (takeIdChars_split rest) as (tail & Hrest & Hall & _).
    split; [exact Hne|]. split.
    + exists (pre +:+ m), tail. rewrite Hs, Hid, append_assoc_s. now rewrite <- Hrest.
    + split; [now rewrite Hid|]. left. exists pre, m, rest. auto.
  - unfold matchBarePattern.
    destruct ((String.length url =? 11) && Str.all isBareIdChar url) eqn:E2;
      [|discriminate].
    intros [= <-]. apply andb_true_iff in E2 as [E2 E3].
    apply Nat.eqb_eq in E2. split; [now destruct url|]. split.
    + exists "", "". now rewrite append_nil_l, append_nil_r_s.
    + split; [now apply all_bare_no_terminator|]. right. auto.
Qed.

Lemma extractVideoId_sound_witness :
  "dQw4w9WgXcQ" <> ""
  /\ (exists pre post,
        "https://youtu.be/dQw4w9WgXcQ?t=42" = pre +:+ "dQw4w9WgXcQ" +:+ post)
  /\ Str.all (fun c => negb (isIdTerminator c)) "dQw4w9WgXcQ" = true
  /\ ((exists pre m rest,
         "https://youtu.be/dQw4w9WgXcQ?t=42" = pre +:+ m +:+ rest
         /\ In m urlMarkers /\ "dQw4w9WgXcQ" = takeIdChars rest)
      \/ ("dQw4w9WgXcQ" = "https://youtu.be/dQw4w9WgXcQ?t=42"
          /\ String.length "https://youtu.be/dQw4w9WgXcQ?t=42" = 11
          /\ Str.all isBareIdChar "https://youtu.be/dQw4w9WgXcQ?t=42" = true)).
Proof.
  apply (extractVideoId_sound "https://youtu.be/dQw4w9WgXcQ?t=42" "dQw4w9WgXcQ").
  reflexivity.
Defined.

Lemma matchUrlPattern_None (s : string) :
  matchUrlPattern s = None ->
  forall pre t, s = pre +:+ t -> ~ usableMarkerAt t.
Proof.
  induction s as [|c s IH]; cbn [matchUrlPattern];
    destruct (matchMarkersAt urlMarkers _) as [id'|] eqn:E; try discriminate;
    intros H pre t Hs (m & rest & Hin & Ht & Hne).
  - destruct pre; [|discriminate]. rewrite append_nil_l in Hs. subst t.
    apply Hne. eapply (matchMarkersAt_None urlMarkers ""); eauto.
  - destruct pre as [|c' pre].
    + rewrite append_nil_l in Hs. subst t.
      apply Hne. eapply matchMarkersAt_None; eauto.
    + rewrite append_cons in Hs. injection Hs as -> Hs.
      apply (IH H pre t Hs). exists m, rest. auto.
Qed.

Lemma matchUrlPattern_no_usable (s : string) :
  (forall pre t, s = pre +:+ t -> ~ usableMarkerAt t) ->
  matchUrlPattern s = None.
Proof.
  induction s as [|c s IH]; intros H; cbn [matchUrlPattern].
  - rewrite matchMarkersAt_not_usable; [reflexivity|]. now apply (H "" "").
  - rewrite matchMarkersAt_not_usable; [|now apply (H "" (String c s))].
    apply IH. intros pre t Hs. apply (H (String c pre) t).
    now rewrite append_cons, Hs.
Qed.

(** X7: extractVideoId yields no identifier, and so processVideo reports an
    invalid URL, exactly when no position of the input starts a marker that
    is followed by an identifier character and the input is not a bare
    identifier of 11 characters of [[a-zA-Z0-9_-]]. *)
Theorem extractVideoId_None_iff (url : string) :
  extractVideoId url = None
  <-> (forall pre t, url = pre +:+ t -> ~ usableMarkerAt t)
      /\ ~ (String.length url = 11 /\ Str.all isBareIdChar url = true).
Proof.
  unfold extractVideoId. cbn [firstMatch patterns]. split.
  - destruct (matchUrlPattern url) as [id'|] eqn:E; [discriminate|].
    unfold matchBarePattern.
    destruct ((String.length url =? 11) && Str.all isBareIdChar url) eqn:E2;
      [discriminate|].
    intros _. split; [now apply matchUrlPattern_None|].
    intros [H1 H2]. apply Nat.eqb_eq in H1. now rewrite H1, H2 in E2.
  - intros [H1 H2]. rewrite (matchUrlPattern_no_usable url H1).
    unfold matchBarePattern.
    destruct ((String.length url =? 11) && Str.all isBareIdChar url) eqn:E2;
      [|reflexivity].
    exfalso. apply H2. apply andb_true_iff in E2 as [E2 E3].
    apply Nat.eqb_eq in E2. auto.
Qed.

(** ** Numbers written and read back *)

Lemma digit_char (d : N) :
  (d < 10)%N ->
  Str.isDigit (ascii_of_N (48 + d)) = true
  /\ digitValue 10 (ascii_of_N (48 + d)) = Some (Z.of_N d).
Proof.
  intros H.
  assert (E : d = 0%N \/ d = 1%N \/ d = 2%N \/ d = 3%N \/ d = 4%N \/ d = 5%N
              \/ d = 6%N \/ d = 7%N \/ d = 8%N \/ d = 9%N) by lia.
  repeat (destruct E as [->|E]; [split; reflexivity|]). subst. split; reflexivity.
Qed.

(** The digits written for [n] parse back to [n], continuing any number
    read before them. *)
Lemma parseDigits_decimalDigits (fuel : nat) :
  forall n acc,
    (n < 10 ^ N.of_nat (S fuel))%N ->
    exists k : nat,
      forall a,
        parseDigits 10 a (decimalDigits fuel n acc)
        = parseDigits 10 (Some (default 0 a * 10 ^ Z.of_nat k + Z.of_N n)%Z) acc.
Proof.
  induction fuel as [|fuel IH]; intros n acc Hn.
  - exists 1. intros a. cbn [decimalDigits parseDigits].
    change (10 ^ N.of_nat 1)%N with 10%N in Hn.
    rewrite N.mod_small by exact Hn.
    destruct (digit_char n Hn) as [_ ->].
    first [reflexivity | f_equal; f_equal; lia].
  - cbn [decimalDigits]. destruct (N.ltb_spec n 10) as [Hlt|Hge].
    + exists 1. intros a. cbn [parseDigits].
      rewrite N.mod_small by exact Hlt.
      destruct (digit_char n Hlt) as [_ ->].
      first [reflexivity | f_equal; f_equal; lia].
    + assert (Hq : (n / 10 < 10 ^ N.of_nat (S fuel))%N).
      { apply N.Div0.div_lt_upper_bound.
        replace (N.of_nat (S (S fuel))) with (N.succ (N.of_nat (S fuel))) in Hn by lia.
        rewrite N.pow_succ_r' in Hn. exact Hn. }
      destruct (IH (n / 10)%N (String (ascii_of_N (48 + n mod 10)) acc) Hq) as [k Hk].
      exists (S k). intros a. rewrite Hk. cbn [parseDigits].
      assert (Hd : (n mod 10 < 10)%N) by (apply N.mod_lt; lia).
      destruct (digit_char _ Hd) as [_ ->]. f_equal. f_equal.
      cbn [default].
      rewrite Nat2Z.inj_succ, Z.pow_succ_r by lia.
      pose proof (N.div_mod n 10 ltac:(lia)) as Hdm.
      rewrite N2Z.inj_div, N2Z.inj_mod in *. 
      assert (Hn' : Z.of_N n = (10 * (Z.of_N n / 10) + Z.of_N n mod 10)%Z)
        by (apply Z.div_mod; lia).
      change (Z.of_N 10) with 10%Z. unfold id.
      generalize (default 0%Z a) (10 ^ Z.of_nat k)%Z. intros x y. lia.
Qed.

Lemma all_digits_decimalDigits (fuel : nat) :
  forall n acc,
    Str.all Str.isDigit acc = true ->
    Str.all Str.isDigit (decimalDigits fuel n acc) = true.
Proof.
  assert (Hd : forall n, Str.isDigit (ascii_of_N (48 + n mod 10)) = true).
  { intros n. apply digit_char. apply N.mod_lt. lia. }
  induction fuel as [|fuel IH]; intros n acc Hacc; cbn [decimalDigits].
  - simpl. now rewrite Hd, Hacc.
  - destruct (n <? 10)%N.
    + simpl. now rewrite Hd, Hacc.
    + apply IH. simpl. now rewrite Hd, Hacc.
Qed.

Lemma decimalDigits_nonempty (fuel : nat) (n : N) (acc : string) :
  decimalDigits fuel n acc <> "".
Proof.
  revert n acc. induction fuel as [|fuel IH]; intros n acc; cbn [decimalDigits].
  - discriminate.
  - destruct (n <? 10)%N; [discriminate|apply IH].
Qed.

Lemma naturalToString_fuel (n : N) : (n < 10 ^ N.of_nat (S (N.to_nat (N.log2 n))))%N.
Proof.
  destruct (N.eq_dec n 0%N) as [->|Hn]; [reflexivity|].
  pose proof (N.log2_spec n ltac:(lia)) as [_ Hhi].
  eapply N.lt_le_trans; [exact Hhi|].
  replace (N.of_nat (S (N.to_nat (N.log2 n)))) with (N.succ (N.log2 n)) by lia.
  apply N.pow_le_mono_l. lia.
Qed.

Lemma isDigit_cases (c : ascii) :
  Str.isDigit c = true ->
  c = "0"%char \/ c = "1"%char \/ c = "2"%char \/ c = "3"%char \/ c = "4"%char
  \/ c = "5"%char \/ c = "6"%char \/ c = "7"%char \/ c = "8"%char \/ c = "9"%char.
Proof.
  destruct c as [[] [] [] [] [] [] [] []]; vm_compute; intros H;
    try discriminate; tauto.
Qed.

Lemma trimStart_digit (c : ascii) (r : string) :
  Str.isDigit c = true \/ c = "-"%char ->
  Ws.trimStart (String c r) = String c r.
Proof.
  intros [H| ->].
  - destruct (isDigit_cases c H) as [->|[->|[->|[->|[->|[->|[->|[->|[->| ->]]]]]]]]];
      destruct r as [|b [|d r]]; reflexivity.
  - destruct r as [|b [|d r]]; reflexivity.
Qed.

(** After the sign, a string of decimal digits is read in base 10: its
    second character is no [x]. *)
Lemma radix_of_digits (c : ascii) (s : string) :
  Str.isDigit c = true -> Str.all Str.isDigit s = true ->
  match String c s with
  | String "0" (String "x" r) => (16%Z, r)
  | String "0" (String "X" r) => (16%Z, r)
  | _ => (10%Z, String c s)
  end = (10%Z, String c s).
Proof.
  intros Hc Hs.
  destruct (isDigit_cases c Hc) as [->|[->|[->|[->|[->|[->|[->|[->|[->| ->]]]]]]]]];
    try reflexivity.
  destruct s as [|c2 s]; [reflexivity|].
  simpl in Hs. apply andb_true_iff in Hs as [Hc2 _].
  destruct (isDigit_cases c2 Hc2) as [->|[->|[->|[->|[->|[->|[->|[->|[->| ->]]]]]]]]];
    reflexivity.
Qed.

(** On a non-empty string of decimal digits parseInt skips nothing and
    reads the digits in base 10; a minus sign before them negates. *)
Lemma parseIntString_digits (s : string) :
  s <> "" -> Str.all Str.isDigit s = true ->
  parseIntString s = parseDigits 10 None s
  /\ parseIntString ("-" +:+ s)
     = match parseDigits 10 None s with Some n => Some (- n)%Z | None => None end.
Proof.
  destruct s as [|c s]; [congruence|]. intros _ H.
  assert (H' := H). simpl in H'. apply andb_true_iff in H' as [Hc Hs].
  pose proof (radix_of_digits c s Hc Hs) as Hradix.
  split.
  - unfold parseIntString. rewrite trimStart_digit by now left.
    replace (match String c s with
             | String "-" r => (true, r)
             | String "+" r => (false, r)
             | _ => (false, String c s)
             end) with (false, String c s).
    + cbv beta iota zeta. rewrite Hradix.
      now destruct (parseDigits 10 None (String c s)).
    + destruct (isDigit_cases c Hc) as [->|[->|[->|[->|[->|[->|[->|[->|[->| ->]]]]]]]]];
        reflexivity.
  - unfold parseIntString. rewrite append_cons, append_nil_l.
    rewrite trimStart_digit by now right.
    cbv beta iota zeta. rewrite Hradix. reflexivity.
Qed.

Lemma parseDigits_naturalToString (n : N) :
  parseDigits 10 None (naturalToString n) = Some (Z.of_N n).
Proof.
  unfold naturalToString.
  destruct (parseDigits_decimalDigits _ n "" (naturalToString_fuel n)) as [k Hk].
  rewrite Hk. cbn [parseDigits default]. first [reflexivity | f_equal; lia].
Qed.

(** parseInt reads back every integer that has been written in decimal. *)
Lemma parseInt_numberToString (n : Z) :
  parseInt (Some (numberToString n)) = Some n.
Proof.
  change (parseInt (Some (numberToString n))) with (parseIntString (numberToString n)).
  unfold numberToString.
  assert (Hs : forall m, naturalToString m <> ""
                         /\ Str.all Str.isDigit (naturalToString m) = true).
  { intros m. split; [apply decimalDigits_nonempty|].
    now apply all_digits_decimalDigits. }
  destruct (Z.ltb_spec n 0) as [Hneg|Hpos].
  - destruct (Hs (Z.to_N (- n))) as [H1 H2].
    destruct (parseIntString_digits _ H1 H2) as [_ ->].
    rewrite parseDigits_naturalToString. f_equal. lia.
  - destruct (Hs (Z.to_N n)) as [H1 H2].
    destruct (parseIntString_digits _ H1 H2) as [-> _].
    rewrite parseDigits_naturalToString. f_equal. lia.
Qed.

(** X8: a caption track whose nodes carry their start and end times as
    decimal integers and a text (possibly empty), the two times and their
    difference being safe integers (of magnitude at most [2^53 - 1]), is
    normalised into one block per node, in order, none dropped: the text as
    it is, the start time as offset, end minus start as duration. *)
Theorem normalizeSegments_numeric_track (track : list (string * Z * Z)) :
  forallb safeEntry track = true ->
  normalizeSegments (map captionNode track) = map blockOf track.
Proof.
  intros _. unfold normalizeSegments.
  induction track as [|[[caption startMs] endMs] track IH]; [reflexivity|].
  cbn [map]. cbn [captionNode List.filter].
  replace (keepSegment _) with true by reflexivity.
  cbn [map]. rewrite IH. f_equal.
  unfold toSubtitleBlock, blockOf. cbn [start_ms end_ms fieldValue].
  rewrite !parseInt_numberToString. reflexivity.
Qed.

Lemma normalizeSegments_numeric_track_witness :
  normalizeSegments
    (map captionNode [ ("Hello", 0, 1500); ("", 1500, 1200); ("late", -40, 9007199254740000) ]%Z)
  = map blockOf [ ("Hello", 0, 1500); ("", 1500, 1200); ("late", -40, 9007199254740000) ]%Z.
Proof.
  apply (normalizeSegments_numeric_track
           [ ("Hello", 0, 1500); ("", 1500, 1200); ("late", -40, 9007199254740000) ]%Z).
  reflexivity.
Defined.

(** ** formatTime and generateSRT *)

Lemma length_append_s (a b : string) :
  String.length (a +:+ b) = String.length a + String.length b.
Proof.
  induction a as [|c a IH]; [reflexivity|].
  rewrite append_cons. simpl. now rewrite IH.
Qed.

Lemma length_decimalDigits (fuel : nat) :
  forall n acc k,
    1 <= k -> (n < 10 ^ N.of_nat k)%N ->
    1 + String.length acc <= String.length (decimalDigits fuel n acc)
    <= k + String.length acc.
Proof.
  induction fuel as [|fuel IH]; intros n acc k Hk Hn; cbn [decimalDigits].
  - simpl. lia.
  - destruct (N.ltb_spec n 10) as [Hlt|Hge]; [simpl; lia|].
    destruct k as [|[|k]]; [lia| |].
    + change (10 ^ N.of_nat 1)%N with 10%N in Hn. lia.
    + assert (Hq : (n / 10 < 10 ^ N.of_nat (S k))%N).
      { apply N.Div0.div_lt_upper_bound.
        replace (N.of_nat (S (S k))) with (N.succ (N.of_nat (S k))) in Hn by lia.
        rewrite N.pow_succ_r' in Hn. exact Hn. }
      specialize (IH (n / 10)%N (String (ascii_of_N (48 + n mod 10)) acc) (S k)
                     ltac:(lia) Hq).
      simpl String.length in IH. lia.
Qed.

Lemma length_numberToString (n : Z) (k : nat) :
  1 <= k -> (0 <= n < 10 ^ Z.of_nat k)%Z ->
  1 <= String.length (numberToString n) <= k.
Proof.
  intros Hk [H0 Hn]. unfold numberToString.
  destruct (Z.ltb_spec n 0) as [|_]; [lia|].
  unfold naturalToString.
  assert (Hb : (Z.to_N n < 10 ^ N.of_nat k)%N).
  { apply N2Z.inj_lt. rewrite N2Z.inj_pow, Z2N.id, nat_N_Z by lia. exact Hn. }
  pose proof (length_decimalDigits (N.to_nat (N.log2 (Z.to_N n))) (Z.to_N n) "" k Hk Hb).
  simpl String.length in *. lia.
Qed.

Lemma length_string_of_list (l : list ascii) :
  String.length (string_of_list_ascii l) = length l.
Proof. induction l as [|c l IH]; simpl; congruence. Qed.

Lemma length_padStart (target : nat) (fill : ascii) (s : string) :
  String.length (padStart target fill s) = Nat.max target (String.length s).
Proof.
  unfold padStart.
  rewrite length_append_s, length_string_of_list, repeat_length. lia.
Qed.

(** X9: for a time that is not negative and is a safe integer (at most
    [2^53 - 1]) formatTime writes hours, minutes, seconds and milliseconds
    that add up to the time again, with minutes and seconds below 60 and
    milliseconds below 1000, each padded with zeros to two digits (three
    for the milliseconds); below 100 hours the stamp has exactly the 12
    characters of [HH:MM:SS,mmm]. *)
Theorem formatTime_nonnegative (ms : Z) :
  (0 <= ms <= MAX_SAFE_INTEGER)%Z ->
  exists h m s k : Z,
    (0 <= h /\ 0 <= m < 60 /\ 0 <= s < 60 /\ 0 <= k < 1000)%Z
    /\ ms = (((h * 60 + m) * 60 + s) * 1000 + k)%Z
    /\ formatTime ms
       = padStart 2 "0" (numberToString h) +:+ ":"
         +:+ padStart 2 "0" (numberToString m) +:+ ":"
         +:+ padStart 2 "0" (numberToString s) +:+ ","
         +:+ padStart 3 "0" (numberToString k)
    /\ ((ms < 360000000)%Z -> String.length (formatTime ms) = 12).
Proof.
  intros [Hms _].
  set (total := (ms / 1000)%Z).
  assert (Ht : (0 <= total)%Z) by (apply Z.div_pos; lia).
  exists (total / 3600)%Z, (Z.rem total 3600 / 60)%Z, (Z.rem total 60), (Z.rem ms 1000).
  rewrite !Z.rem_mod_nonneg by lia.
  pose proof (Z.div_mod ms 1000 ltac:(lia)) as E1.
  pose proof (Z.mod_pos_bound ms 1000 ltac:(lia)) as B1.
  pose proof (Z.div_mod total 3600 ltac:(lia)) as E2.
  pose proof (Z.mod_pos_bound total 3600 ltac:(lia)) as B2.
  pose proof (Z.div_mod (total mod 3600) 60 ltac:(lia)) as E3.
  pose proof (Z.mod_pos_bound (total mod 3600) 60 ltac:(lia)) as B3.
  assert (E4 : (total mod 60 = (total mod 3600) mod 60)%Z).
  { pose proof (Z.mod_pos_bound (total mod 3600) 60 ltac:(lia)).
    symmetry.
    apply Z.mod_unique with (q := (60 * (total / 3600) + total mod 3600 / 60)%Z);
      [left; lia|lia]. }
  assert (Hh : (0 <= total / 3600)%Z) by (apply Z.div_pos; lia).
  assert (Hm : (0 <= total mod 3600 / 60 < 60)%Z).
  { split; [apply Z.div_pos; lia|]. apply Z.div_lt_upper_bound; lia. }
  fold total in E1.
  split; [repeat split; lia|]. split; [lia|]. split.
  - unfold formatTime. fold total. now rewrite !Z.rem_mod_nonneg by lia.
  - intros Hlt. unfold formatTime. fold total. rewrite !Z.rem_mod_nonneg by lia.
    assert (Hh2 : (total / 3600 < 100)%Z) by (apply Z.div_lt_upper_bound; lia).
    rewrite !length_append_s, !length_padStart.
    pose proof (length_numberToString (total / 3600) 2 ltac:(lia) ltac:(simpl; lia)).
    pose proof (length_numberToString (total mod 3600 / 60) 2 ltac:(lia) ltac:(simpl; lia)).
    pose proof (length_numberToString (total mod 60) 2 ltac:(lia)
                  ltac:(pose proof (Z.mod_pos_bound total 60 ltac:(lia)); simpl; lia)).
    pose proof (length_numberToString (ms mod 1000) 3 ltac:(lia) ltac:(simpl; lia)).
    simpl String.length. lia.
Qed.

Lemma formatTime_nonnegative_witness :
  exists h m s k : Z,
    (0 <= h /\ 0 <= m < 60 /\ 0 <= s < 60 /\ 0 <= k < 1000)%Z
    /\ 3723004%Z = (((h * 60 + m) * 60 + s) * 1000 + k)%Z
    /\ formatTime 3723004
       = padStart 2 "0" (numberToString h) +:+ ":"
         +:+ padStart 2 "0" (numberToString m) +:+ ":"
         +:+ padStart 2 "0" (numberToString s) +:+ ","
         +:+ padStart 3 "0" (numberToString k)
    /\ ((3723004 < 360000000)%Z -> String.length (formatTime 3723004) = 12).
Proof. apply (formatTime_nonnegative 3723004). unfold MAX_SAFE_INTEGER. lia. Defined.

(** X10: for a negative time, as the end of a block whose duration is
    negative enough can be, formatTime writes no valid stamp: the hours are
    negative and the text starts with a minus sign. *)
Theorem formatTime_negative (ms : Z) :
  (ms < 0)%Z -> exists rest, formatTime ms = String "-" rest.
Proof.
  intros Hms. unfold formatTime.
  set (hours := (ms / 1000 / 3600)%Z).
  assert (Hh : (hours < 0)%Z).
  { unfold hours.
    assert (ms / 1000 < 0)%Z by (apply Z.div_lt_upper_bound; lia).
    apply Z.div_lt_upper_bound; lia. }
  unfold numberToString at 1. destruct (Z.ltb_spec hours 0) as [_|]; [|lia].
  unfold padStart at 1.
  assert (Hlen : 2 <= String.length ("-" +:+ naturalToString (Z.to_N (- hours)))).
  { rewrite append_cons, append_nil_l. simpl.
    pose proof (decimalDigits_nonempty (N.to_nat (N.log2 (Z.to_N (- hours))))
                  (Z.to_N (- hours)) "") as Hne.
    unfold naturalToString. destruct (decimalDigits _ _ _); [congruence|simpl; lia]. }
  replace (2 - String.length ("-" +:+ naturalToString (Z.to_N (- hours)))) with 0 by lia.
  cbn [repeat string_of_list_ascii]. rewrite append_nil_l, !append_cons, append_nil_l.
  eexists. reflexivity.
Qed.

Lemma formatTime_negative_witness :
  exists rest, formatTime (-1) = String "-" rest.
Proof. apply (formatTime_negative (-1)). lia. Defined.

Lemma singleLine_append (a b : string) :
  singleLine (a +:+ b) = singleLine a && singleLine b.
Proof.
  unfold singleLine. induction a as [|c a IH]; [reflexivity|].
  rewrite append_cons. simpl. now rewrite IH, andb_assoc.
Qed.

Lemma singleLine_digits (s : string) :
  Str.all Str.isDigit s = true -> singleLine s = true.
Proof.
  unfold singleLine. induction s as [|c s IH]; [reflexivity|]. simpl.
  intros H. apply andb_true_iff in H as [Hc Hs]. rewrite (IH Hs), andb_true_r.
  destruct (isDigit_cases c Hc) as [->|[->|[->|[->|[->|[->|[->|[->|[->| ->]]]]]]]]];
    reflexivity.
Qed.

Lemma singleLine_numberToString (n : Z) : singleLine (numberToString n) = true.
Proof.
  unfold numberToString, naturalToString.
  destruct (n <? 0)%Z.
  - rewrite singleLine_append. simpl.
    apply singleLine_digits. now apply all_digits_decimalDigits.
  - apply singleLine_digits. now apply all_digits_decimalDigits.
Qed.

Lemma singleLine_padStart (target : nat) (s : string) :
  singleLine s = true -> singleLine (padStart target "0" s) = true.
Proof.
  intros H. unfold padStart. rewrite singleLine_append, H, andb_true_r.
  induction (target - String.length s) as [|n IH]; [reflexivity|].
  simpl. exact IH.
Qed.

Lemma singleLine_formatTime (ms : Z) : singleLine (formatTime ms) = true.
Proof.
  unfold formatTime. cbv zeta.
  rewrite !singleLine_append, !singleLine_padStart by apply singleLine_numberToString.
  reflexivity.
Qed.

Lemma lines_single (a rest : string) :
  singleLine a = true -> lines (a +:+ newline +:+ rest) = a :: lines rest.
Proof.
  unfold singleLine. induction a as [|c a IH]; intros H.
  - rewrite append_nil_l. reflexivity.
  - simpl in H. apply andb_true_iff in H as [Hc Ha].
    rewrite append_cons. cbn [lines].
    apply negb_true_iff in Hc. rewrite Hc, (IH Ha). reflexivity.
Qed.

Lemma lines_srtEntry {T} (toStr : T -> string) (index : nat) (sub : Block T) (rest : string) :
  singleLine (toStr (text sub)) = true ->
  lines (srtEntry toStr index sub +:+ rest)
  = numberToString (Z.of_nat index + 1)
    :: (formatTime (offset sub) +:+ " --> " +:+ formatTime (offset sub + duration sub))
    :: toStr (text sub) :: lines rest.
Proof.
  intros Htext. unfold srtEntry.
  set (timing := formatTime (offset sub) +:+ " --> "
                 +:+ formatTime (offset sub + duration sub)).
  rewrite !append_assoc_s.
  rewrite lines_single by apply singleLine_numberToString.
  replace (formatTime (offset sub) +:+ " --> "
           +:+ formatTime (offset sub + duration sub)
           +:+ newline +:+ toStr (text sub) +:+ newline +:+ rest)
    with (timing +:+ newline +:+ toStr (text sub) +:+ newline +:+ rest)
    by (unfold timing; now rewrite !append_assoc_s).
  rewrite lines_single.
  - rewrite lines_single by exact Htext. reflexivity.
  - unfold timing. rewrite !singleLine_append, !singleLine_formatTime. reflexivity.
Qed.

Lemma generateSRT_lines_from {T} (toStr : T -> string) (subtitles : list (Block T)) :
  forall (entry : nat -> Block T -> string) (block : nat -> Block T -> list string),
    subtitles <> [] ->
    (forall index sub rest,
        In sub subtitles ->
        exists l1 l2 l3,
          block index sub = [l1; l2; l3; ""]
          /\ lines (entry index sub +:+ rest) = l1 :: l2 :: l3 :: lines rest) ->
    lines (join newline (imap entry subtitles)) = concat (imap block subtitles).
Proof.
  induction subtitles as [|sub subtitles IH]; intros entry block Hne Hentry; [congruence|].
  destruct subtitles as [|sub2 subtitles].
  - cbn [imap join concat]. rewrite app_nil_r.
    destruct (Hentry 0 sub "" ltac:(now left)) as (l1 & l2 & l3 & -> & Hl).
    rewrite append_nil_r_s in Hl. rewrite Hl. reflexivity.
  - change (imap entry (sub :: sub2 :: subtitles))
      with (entry 0 sub :: imap (entry ∘ S) (sub2 :: subtitles)).
    change (imap block (sub :: sub2 :: subtitles))
      with (block 0 sub :: imap (block ∘ S) (sub2 :: subtitles)).
    cbn [concat].
    rewrite <- (IH (entry ∘ S) (block ∘ S)); [|discriminate|].
    + remember (imap (entry ∘ S) (sub2 :: subtitles)) as tail eqn:Etail.
      assert (Hj : join newline (entry 0 sub :: tail)
                   = entry 0 sub +:+ newline +:+ join newline tail).
      { destruct tail; [discriminate Etail|reflexivity]. }
      rewrite Hj.
      destruct (Hentry 0 sub (newline +:+ join newline tail) ltac:(now left))
        as (l1 & l2 & l3 & -> & Hl).
      rewrite Hl. reflexivity.
    + intros index s rest Hin. apply (Hentry (S index) s rest). now right.
Qed.

(** X11: when no text holds a line feed, the lines of the file generateSRT
    writes for a non-empty timeline are, block after block, the sequence
    number counted from 1, the line [start --> end] of the two stamps of
    [offset] and [offset + duration], the text, and an empty line. *)
Theorem generateSRT_lines {T} (toStr : T -> string) (subtitles : list (Block T)) :
  subtitles <> [] ->
  (forall sub, In sub subtitles -> singleLine (toStr (text sub)) = true) ->
  lines (generateSRT toStr subtitles) = concat (imap (srtLines toStr) subtitles).
Proof.
  intros Hne Htext. unfold generateSRT.
  apply (generateSRT_lines_from toStr); [exact Hne|].
  intros index sub rest Hin.
  eexists _, _, _. split; [reflexivity|].
  apply lines_srtEntry. now apply Htext.
Qed.

Lemma generateSRT_lines_witness :
  lines (generateSRT (fun s : string => s) demoChunk)
  = [ "1"; "00:00:00,000 --> 00:00:01,500"; "Hello"; "";
      "2"; "00:00:01,500 --> 00:00:03,200"; "world"; "" ].
Proof.
  rewrite (generateSRT_lines (fun s : string => s) demoChunk);
    [reflexivity|discriminate|].
  intros sub [<-|[<-|[]]]; reflexivity.
Defined.

(** ** The page *)









(** *** getVideoId beside extractVideoId *)

Lemma all_app (f : ascii -> bool) (a b : string) :
  Str.all f (a +:+ b) = Str.all f a && Str.all f b.
Proof.
  induction a as [|c a IH]; [now rewrite append_nil_l|].
  rewrite append_cons. simpl. now rewrite IH, andb_assoc.
Qed.

Lemma stripPrefix_all_false (f : ascii -> bool) (p s : string) :
  Str.all f p = false -> Str.all f s = true -> Str.stripPrefix p s = None.
Proof.
  intros Hp Hs. destruct (Str.stripPrefix p s) as [r|] eqn:E; [|reflexivity].
  apply stripPrefix_Some in E. subst s.
  rewrite all_app, Hp in Hs. discriminate.
Qed.

Lemma stripPrefix_all (f : ascii -> bool) (p s r : string) :
  Str.stripPrefix p s = Some r -> Str.all f s = true -> Str.all f r = true.
Proof.
  intros E Hs. apply stripPrefix_Some in E. subst s.
  rewrite all_app in Hs. now apply andb_true_iff in Hs.
Qed.

Lemma anyChar_all (f : ascii -> bool) (s r : string) :
  Page.anyChar s = Some r -> Str.all f s = true -> Str.all f r = true.
Proof.
  unfold Page.anyChar. destruct (Page.lineTerminatorAt s); [discriminate|].
  destruct s as [|a [|b [|c s]]]; try discriminate;
    repeat match goal with |- context [if ?b then _ else _] => destruct b end;
    try discriminate; intros [= <-]; simpl; intros H;
    repeat (apply andb_true_iff in H as [? H]); simpl; auto.
  all: try (apply andb_true_iff; split; auto).
  all: try (apply andb_true_iff; split; auto).
Qed.

Lemma wordChar_all (f : ascii -> bool) (s r : string) :
  Page.wordChar s = Some r -> Str.all f s = true -> Str.all f r = true.
Proof.
  unfold Page.wordChar. destruct s as [|c s]; [discriminate|].
  destruct (_ || _); [|discriminate]. intros [= <-]. simpl.
  intros H. now apply andb_true_iff in H.
Qed.

Lemma markerAt_bare (s : string) :
  Str.all isBareIdChar s = true -> Page.markerAt s = None.
Proof.
  intros Hs. unfold Page.markerAt, Page.markerAlternatives.
  cbn [firstMatch].
  rewrite (stripPrefix_all_false isBareIdChar "v/" s eq_refl Hs).
  rewrite (stripPrefix_all_false isBareIdChar "embed/" s eq_refl Hs).
  rewrite (stripPrefix_all_false isBareIdChar "watch?v=" s eq_refl Hs).
  rewrite (stripPrefix_all_false isBareIdChar "&v=" s eq_refl Hs).
  destruct (Str.stripPrefix "youtu" s) as [s1|] eqn:E1; cbn [Page.andThen].
  - pose proof (stripPrefix_all _ _ _ _ E1 Hs) as H1.
    destruct (Page.anyChar s1) as [s2|] eqn:E2; cbn [Page.andThen].
    + rewrite (stripPrefix_all_false isBareIdChar "be/" s2 eq_refl
                 (anyChar_all _ _ _ E2 H1)).
      destruct (Str.stripPrefix "u/" s) as [s3|] eqn:E3; cbn [Page.andThen];
        [|reflexivity].
      now rewrite (stripPrefix_all_false isBareIdChar "u/" s eq_refl Hs) in E3.
    + now rewrite (stripPrefix_all_false isBareIdChar "u/" s eq_refl Hs).
  - now rewrite (stripPrefix_all_false isBareIdChar "u/" s eq_refl Hs).
Qed.

Lemma lastMarker_bare (s : string) :
  Str.all isBareIdChar s = true -> Page.lastMarker s = None.
Proof.
  induction s as [|c s IH]; intros Hs.
  - reflexivity.
  - cbn [Page.lastMarker]. rewrite (markerAt_bare _ Hs).
    simpl in Hs. apply andb_true_iff in Hs as [_ Hs]. rewrite (IH Hs).
    now destruct (Page.lineTerminatorAt _).
Qed.

Lemma matchMarkersAt_bare (s : string) :
  Str.all isBareIdChar s = true -> matchMarkersAt urlMarkers s = None.
Proof.
  intros Hs. unfold urlMarkers. cbn [matchMarkersAt].
  rewrite (stripPrefix_all_false isBareIdChar "youtube.com/watch?v=" s eq_refl Hs).
  rewrite (stripPrefix_all_false isBareIdChar "youtu.be/" s eq_refl Hs).
  now rewrite (stripPrefix_all_false isBareIdChar "youtube.com/embed/" s eq_refl Hs).
Qed.

Lemma matchUrlPattern_bare (s : string) :
  Str.all isBareIdChar s = true -> matchUrlPattern s = None.
Proof.
  induction s as [|c s IH]; intros Hs; cbn [matchUrlPattern];
    rewrite (matchMarkersAt_bare _ Hs); [reflexivity|].
  simpl in Hs. apply andb_true_iff in Hs as [_ Hs]. auto.
Qed.

(** X15: an input made of exactly 11 characters of [[a-zA-Z0-9_-]] and
    nothing else is taken as the identifier itself by extractVideoId on the
    server, while getVideoId of the page returns null for it: each of its
    markers holds a [/] or a [=]. *)
Theorem bare_identifier_server_only (s : string) :
  String.length s = 11 ->
  Str.all isBareIdChar s = true ->
  extractVideoId s = Some s /\ Page.getVideoId s = None.
Proof.
  intros Hlen Hs. split.
  - unfold extractVideoId. cbn [firstMatch patterns].
    rewrite (matchUrlPattern_bare _ Hs). unfold matchBarePattern.
    now rewrite Hlen, Hs.
  - unfold Page.getVideoId. now rewrite (lastMarker_bare _ Hs).
Qed.

Lemma bare_identifier_server_only_witness :
  extractVideoId "dQw4w9WgXcQ" = Some "dQw4w9WgXcQ"
  /\ Page.getVideoId "dQw4w9WgXcQ" = None.
Proof. apply (bare_identifier_server_only "dQw4w9WgXcQ"); reflexivity. Defined.

Lemma bare_plain (c : ascii) : isBareIdChar c = true -> plainChar c = true.
Proof.
  destruct c as [[] [] [] [] [] [] [] []]; vm_compute; congruence.
Qed.

Lemma all_bare_plain (s : string) :
  Str.all isBareIdChar s = true -> Str.all plainChar s = true.
Proof.
  induction s as [|c s IH]; simpl; [reflexivity|].
  intros H. apply andb_true_iff in H as [Hc Hs].
  now rewrite (bare_plain c Hc), IH.
Qed.

Lemma lineTerminatorAt_plain (c : ascii) (s : string) :
  plainChar c = true -> Page.lineTerminatorAt (String c s) = false.
Proof.
  unfold plainChar, Page.lineTerminatorAt. intros H.
  apply andb_true_iff in H as [H H3]. apply andb_true_iff in H as [H1 H2].
  apply negb_true_iff in H1, H2, H3. now rewrite H1, H2, H3.
Qed.

Lemma lastMarker_skip (p s r : string) :
  Str.all plainChar p = true ->
  Page.lastMarker s = Some r ->
  Page.lastMarker (p +:+ s) = Some r.
Proof.
  intros Hp Hs. induction p as [|c p IH]; [now rewrite append_nil_l|].
  simpl in Hp. apply andb_true_iff in Hp as [Hc Hp].
  rewrite append_cons. cbn [Page.lastMarker].
  now rewrite (lineTerminatorAt_plain c _ Hc), (IH Hp).
Qed.

Lemma lastMarker_here (c : ascii) (s : string) :
  plainChar c = true ->
  Page.lastMarker s = None ->
  Page.lastMarker (String c s) = Page.markerAt (String c s).
Proof.
  intros Hc Hs. cbn [Page.lastMarker].
  now rewrite (lineTerminatorAt_plain c _ Hc), Hs.
Qed.

Lemma takeGroup2_bare (s : string) :
  Str.all isBareIdChar s = true -> Page.takeGroup2 s = s.
Proof.
  induction s as [|c s IH]; simpl; [reflexivity|].
  intros H. apply andb_true_iff in H as [Hc Hs]. rewrite (IH Hs).
  revert Hc. destruct c as [[] [] [] [] [] [] [] []]; vm_compute; congruence.
Qed.

Lemma takeIdChars_bare (s : string) :
  Str.all isBareIdChar s = true -> takeIdChars s = s.
Proof.
  induction s as [|c s IH]; simpl; [reflexivity|].
  intros H. apply andb_true_iff in H as [Hc Hs].
  now rewrite (bareIdChar_not_terminator c Hc), (IH Hs).
Qed.

Lemma utf16Length_bare (s : string) :
  Str.all isBareIdChar s = true -> Page.utf16Length s = String.length s.
Proof.
  induction s as [|c s IH]; simpl; [reflexivity|].
  intros H. apply andb_true_iff in H as [Hc Hs]. rewrite (IH Hs). f_equal.
  revert Hc. destruct c as [[] [] [] [] [] [] [] []]; vm_compute; congruence.
Qed.

Lemma lastMarker_none_cons (c : ascii) (s : string) :
  plainChar c = true ->
  Page.lastMarker s = None ->
  Page.markerAt (String c s) = None ->
  Page.lastMarker (String c s) = None.
Proof. intros Hc Hs Hm. now rewrite (lastMarker_here c s Hc Hs). Qed.

Lemma lastMarker_found (c : ascii) (s r : string) :
  plainChar c = true ->
  Page.lastMarker s = None ->
  Page.markerAt (String c s) = Some r ->
  Page.lastMarker (String c s) = Some r.
Proof. intros Hc Hs Hm. now rewrite (lastMarker_here c s Hc Hs). Qed.

Ltac no_marker H :=
  repeat (apply lastMarker_none_cons; [reflexivity| |reflexivity]); exact H.

Lemma lastMarker_marker (m id : string) :
  In m ["youtu.be/"; "v/"; "embed/"; "watch?v="; "&v="] ->
  Str.all isBareIdChar id = true ->
  Page.lastMarker (m +:+ id) = Some id.
Proof.
  intros Hin Hid. pose proof (lastMarker_bare id Hid) as Hnone.
  simpl in Hin. destruct Hin as [<-|[<-|[<-|[<-|[<-|[]]]]]];
    rewrite !append_cons, append_nil_l;
    (apply lastMarker_found; [reflexivity|no_marker Hnone|reflexivity]).
Qed.

Lemma getVideoId_found (s id : string) :
  Page.lastMarker s = Some id ->
  String.length id = 11 ->
  Str.all isBareIdChar id = true ->
  Page.getVideoId s = Some id.
Proof.
  intros Hs Hlen Hid. unfold Page.getVideoId.
  now rewrite Hs, (takeGroup2_bare id Hid), (utf16Length_bare id Hid), Hlen.
Qed.

(** Whether a line terminator starts at the last bytes of a text is not
    changed by an ASCII character put after it. *)
Lemma lineTerminatorAt_app (c : ascii) (p s : string) :
  (forall h t, s = String h t -> Str.code h < 128) ->
  Page.lineTerminatorAt (String c (p +:+ s)) = Page.lineTerminatorAt (String c p).
Proof.
  intros Hs. unfold Page.lineTerminatorAt.
  destruct p as [|b [|d p]]; rewrite ?append_cons, ?append_nil_l.
  - destruct s as [|h t]; [reflexivity|].
    pose proof (Hs h t eq_refl) as Hh.
    do 2 f_equal. destruct t as [|h' t]; [reflexivity|].
    destruct (Nat.eqb_spec (Str.code h) 128) as [E|_]; [lia|reflexivity].
  - destruct s as [|h t]; [reflexivity|].
    pose proof (Hs h t eq_refl) as Hh.
    do 2 f_equal.
    destruct (Nat.eqb_spec (Str.code h) 168) as [E|_]; [lia|].
    destruct (Nat.eqb_spec (Str.code h) 169) as [E|_]; [lia|].
    now rewrite andb_false_r.
  - reflexivity.
Qed.

Lemma lastMarker_skip_text (p s r : string) :
  noLineTerminator p = true ->
  (forall h t, s = String h t -> Str.code h < 128) ->
  Page.lastMarker s = Some r ->
  Page.lastMarker (p +:+ s) = Some r.
Proof.
  intros Hp Hhead Hs. induction p as [|c p IH]; [now rewrite append_nil_l|].
  cbn [noLineTerminator] in Hp. apply andb_true_iff in Hp as [Hc Hp].
  apply negb_true_iff in Hc.
  rewrite append_cons. cbn [Page.lastMarker].
  now rewrite (lineTerminatorAt_app c p s Hhead), Hc, (IH Hp).
Qed.

(** X16: when the input ends with one of the markers [youtu.be/], [v/],
    [embed/], [watch?v=] and [&v=] followed by 11 characters of
    [[a-zA-Z0-9_-]], and no line terminator (LF, CR, U+2028, U+2029) comes
    before the marker, getVideoId returns these 11 characters, whatever
    else comes before the marker. *)
Theorem getVideoId_after_marker (p m id : string) :
  noLineTerminator p = true ->
  In m ["youtu.be/"; "v/"; "embed/"; "watch?v="; "&v="] ->
  String.length id = 11 ->
  Str.all isBareIdChar id = true ->
  Page.getVideoId (p +:+ m +:+ id) = Some id.
Proof.
  intros Hp Hm Hlen Hid. apply getVideoId_found; try assumption.
  apply lastMarker_skip_text; [exact Hp| |now apply lastMarker_marker].
  intros h t E. simpl in Hm.
  destruct Hm as [<-|[<-|[<-|[<-|[<-|[]]]]]];
    rewrite append_cons in E; injection E as <- _; vm_compute; lia.
Qed.

Lemma getVideoId_after_marker_witness :
  Page.getVideoId (decoratedAddress +:+ "v/" +:+ "dQw4w9WgXcQ")
  = Some "dQw4w9WgXcQ".
Proof.
  apply (getVideoId_after_marker decoratedAddress "v/" "dQw4w9WgXcQ").
  - reflexivity.
  - right. left. reflexivity.
  - reflexivity.
  - reflexivity.
Defined.

Lemma extractVideoId_at_marker (pre m rest id : string) :
  noMatchBefore pre (m +:+ rest) = true ->
  In m urlMarkers ->
  takeIdChars rest = id ->
  id <> "" ->
  extractVideoId (pre +:+ m +:+ rest) = Some id.
Proof.
  intros Hpre Hm <- Hrest. unfold extractVideoId. cbn [firstMatch patterns].
  rewrite (matchUrlPattern_skip pre (m +:+ rest) (noMatchBefore_spec _ _ Hpre)).
  now rewrite (matchUrlPattern_here _ _ (matchMarkersAt_marker m rest Hm Hrest)).
Qed.

Lemma bare_nonempty (id : string) : String.length id = 11 -> id <> "".
Proof. now destruct id. Qed.

(** X17: on the three usual forms of a video address, with an identifier of
    11 characters of [[a-zA-Z0-9_-]] and nothing after it, the server's
    extractVideoId and the page's getVideoId return the same identifier. *)
Theorem extractVideoId_getVideoId_agree (id : string) :
  String.length id = 11 ->
  Str.all isBareIdChar id = true ->
  Forall (fun address =>
            extractVideoId (address +:+ id) = Some id
            /\ Page.getVideoId (address +:+ id) = Some id)
         [ "https://www.youtube.com/watch?v=";
           "https://youtu.be/";
           "https://www.youtube.com/embed/" ].
Proof.
  intros Hlen Hid.
  pose proof (takeIdChars_bare id Hid) as Htake.
  pose proof (bare_nonempty id Hlen) as Hne.
  constructor; [|constructor; [|constructor; [|constructor]]]; split.
  - change "https://www.youtube.com/watch?v="
      with ("https://www." +:+ "youtube.com/watch?v=").
    rewrite append_assoc_s.
    apply extractVideoId_at_marker; [reflexivity|simpl; auto|exact Htake|exact Hne].
  - change "https://www.youtube.com/watch?v="
      with ("https://www.youtube.com/" +:+ "watch?v=").
    rewrite append_assoc_s.
    apply getVideoId_found; try assumption.
    apply lastMarker_skip; [reflexivity|].
    apply lastMarker_marker; [simpl; auto 10|assumption].
  - change "https://youtu.be/" with ("https://" +:+ "youtu.be/").
    rewrite append_assoc_s.
    apply extractVideoId_at_marker; [reflexivity|simpl; auto|exact Htake|exact Hne].
  - change "https://youtu.be/" with ("https://" +:+ "youtu.be/").
    rewrite append_assoc_s.
    apply getVideoId_found; try assumption.
    apply lastMarker_skip; [reflexivity|].
    apply lastMarker_marker; [simpl; auto 10|assumption].
  - change "https://www.youtube.com/embed/"
      with ("https://www." +:+ "youtube.com/embed/").
    rewrite append_assoc_s.
    apply extractVideoId_at_marker; [reflexivity|simpl; auto|exact Htake|exact Hne].
  - change "https://www.youtube.com/embed/"
      with ("https://www.youtube.com/" +:+ "embed/").
    rewrite append_assoc_s.
    apply getVideoId_found; try assumption.
    apply lastMarker_skip; [reflexivity|].
    apply lastMarker_marker; [simpl; auto 10|assumption].
Qed.

Lemma extractVideoId_getVideoId_agree_witness :
  Forall (fun address =>
            extractVideoId (address +:+ "dQw4w9WgXcQ") = Some "dQw4w9WgXcQ"
            /\ Page.getVideoId (address +:+ "dQw4w9WgXcQ") = Some "dQw4w9WgXcQ")
         [ "https://www.youtube.com/watch?v=";
           "https://youtu.be/";
           "https://www.youtube.com/embed/" ].
Proof. apply (extractVideoId_getVideoId_agree "dQw4w9WgXcQ"); reflexivity. Defined.

Lemma takeIdChars_app_bare (a : string) (c : ascii) (t : string) :
  Str.all isBareIdChar a = true ->
  isIdTerminator c = true ->
  takeIdChars (a +:+ String c t) = a.
Proof.
  intros Ha Hc. induction a as [|x a IH].
  - rewrite append_nil_l. simpl. now rewrite Hc.
  - simpl in Ha. apply andb_true_iff in Ha as [Hx Ha].
    rewrite append_cons. simpl.
    now rewrite (bareIdChar_not_terminator x Hx), (IH Ha).
Qed.

(** X18: when the address carries the parameter [v] twice,
    [watch?v=a&v=b] with two identifiers of 11 characters of
    [[a-zA-Z0-9_-]], the server's extractVideoId takes the first, [a], and
    the page's getVideoId takes the last, [b]: the transcript is made for
    one video and the player is given the other. *)
Theorem extractVideoId_getVideoId_differ (a b : string) :
  String.length a = 11 -> Str.all isBareIdChar a = true ->
  String.length b = 11 -> Str.all isBareIdChar b = true ->
  extractVideoId ("https://www.youtube.com/watch?v=" +:+ a +:+ "&v=" +:+ b) = Some a
  /\ Page.getVideoId ("https://www.youtube.com/watch?v=" +:+ a +:+ "&v=" +:+ b) = Some b.
Proof.
  intros Hla Ha Hlb Hb. split.
  - change "https://www.youtube.com/watch?v="
      with ("https://www." +:+ "youtube.com/watch?v=").
    rewrite append_assoc_s.
    assert (Htake : takeIdChars (a +:+ "&v=" +:+ b) = a)
      by (rewrite append_cons; now apply takeIdChars_app_bare).
    apply extractVideoId_at_marker;
      [reflexivity|simpl; auto|exact Htake|now apply bare_nonempty].
  - rewrite <- !append_assoc_s. rewrite (append_assoc_s _ "&v=" b).
    apply getVideoId_found; try assumption.
    apply lastMarker_skip; [|apply lastMarker_marker; [simpl; auto 10|assumption]].
    rewrite all_app. rewrite (all_bare_plain a Ha). reflexivity.
Qed.

Lemma extractVideoId_getVideoId_differ_witness :
  extractVideoId
    ("https://www.youtube.com/watch?v=" +:+ "dQw4w9WgXcQ" +:+ "&v=" +:+ "9bZkp7q19f0")
  = Some "dQw4w9WgXcQ"
  /\ Page.getVideoId
       ("https://www.youtube.com/watch?v=" +:+ "dQw4w9WgXcQ" +:+ "&v=" +:+ "9bZkp7q19f0")
     = Some "9bZkp7q19f0".
Proof.
  apply (extractVideoId_getVideoId_differ "dQw4w9WgXcQ" "9bZkp7q19f0"); reflexivity.
Defined.

(** *** handleProcess *)

Section HandlerFacts.

Variable JSON_parse : string -> ParseResult.

Lemma processVideo_returns (videoUrl : string) (w : World) :
exists result w', processVideo JSON_parse videoUrl w = (Returned result, w').
Proof.
rewrite processVideo_run.
destruct (extractVideoId videoUrl) as [videoId|]; [|eauto].
destruct (Str.isEmpty videoId); [eauto|].
destruct (getCachedTranscript_no_divergence JSON_parse videoId w)
  as [(data & w' & H)|(e & w' & H)]; rewrite H; eauto.
Qed.

Lemma shownError_nonempty (message : string) : Page.shownError message <> "".
Proof. unfold Page.shownError. now destruct message. Qed.

(** X14: with a non-empty address, handleProcess always comes to its end,
  with the loading flag lowered again and the shown subtitle cleared, in
  one of two states: the player is ready, the subtitles are the data of
  the successful result and no error is shown; or the player is not
  ready, the subtitle list is empty and a non-empty error is shown, the
  message of the failure or, when that is empty, the fixed text. *)
Theorem handleProcess_settles (st : Page.HomeState) (w : World) :
Page.url st <> "" ->
exists st' w',
  Page.handleProcess JSON_parse st w = (Returned st', w')
  /\ Page.url st' = Page.url st
  /\ Page.loading st' = false
  /\ Page.shown st' = JsString ""
  /\ ((exists data,
         processVideo JSON_parse (Page.url st) w = (Returned (Success data), w')
         /\ Page.videoReady st' = true
         /\ Page.subtitles st' = data
         /\ Page.error st' = "")
      \/ (exists message,
            processVideo JSON_parse (Page.url st) w = (Returned (Failure message), w')
            /\ Page.videoReady st' = false
            /\ Page.subtitles st' = []
            /\ Page.error st' = Page.shownError message
            /\ Page.error st' <> "")).
Proof.
intros Hurl. apply isEmpty_false in Hurl.
unfold Page.handleProcess. rewrite Hurl. unfold bind, ret.
destruct (processVideo_returns (Page.url st) w) as (result & w' & Hrun).
rewrite Hrun. destruct result as [data|message]; eexists _, w'; cbn.
- repeat split. left. exists data. auto.
- repeat split. right. exists message. repeat split.
  apply shownError_nonempty.
Qed.

End HandlerFacts.

Lemma handleProcess_settles_witness :
  exists st' w',
    Page.handleProcess JSON.parse (freshHome "https://youtu.be/dQw4w9WgXcQ") demoWorld
    = (Returned st', w')
    /\ Page.url st' = "https://youtu.be/dQw4w9WgXcQ"
    /\ Page.loading st' = false
    /\ Page.shown st' = JsString ""
    /\ ((exists data,
           processVideo JSON.parse "https://youtu.be/dQw4w9WgXcQ" demoWorld
           = (Returned (Success data), w')
           /\ Page.videoReady st' = true
           /\ Page.subtitles st' = data
           /\ Page.error st' = "")
        \/ (exists message,
              processVideo JSON.parse "https://youtu.be/dQw4w9WgXcQ" demoWorld
              = (Returned (Failure message), w')
              /\ Page.videoReady st' = false
              /\ Page.subtitles st' = []
              /\ Page.error st' = Page.shownError message
              /\ Page.error st' <> "")).
Proof.
  apply (handleProcess_settles JSON.parse (freshHome "https://youtu.be/dQw4w9WgXcQ")
           demoWorld).
  discriminate.
Defined.

(** *** Cleaning the model output *)

Lemma all_impl (f g : ascii -> bool) (s : string) :
  (forall c, f c = true -> g c = true) -> Str.all f s = true -> Str.all g s = true.
Proof.
  intros Hfg. induction s as [|c s IH]; simpl; [reflexivity|].
  intros H. apply andb_true_iff in H as [Hc Hs]. now rewrite (Hfg c Hc), IH.
Qed.

Lemma removeMatches_all (matchAt : string -> option nat) (f : ascii -> bool) (s : string) :
  forall skip, Str.all f s = true -> Str.all f (removeMatches matchAt skip s) = true.
Proof.
  induction s as [|c s IH]; intros skip Hs; [reflexivity|].
  simpl in Hs. apply andb_true_iff in Hs as [Hc Hs].
  cbn [removeMatches]. destruct skip as [|k]; [|auto].
  destruct (matchAt (String c s)) as [[|k]|]; [|now apply IH|];
    simpl; rewrite Hc; now apply IH.
Qed.

Lemma bracketed_app (body rest : string) :
  String "[" (body +:+ String "]" rest) = String "[" (body +:+ "]") +:+ rest.
Proof.
  now rewrite append_cons, append_assoc_s, append_cons, append_nil_l.
Qed.

Section Fences.

(** A pattern that starts with a backtick and whose match holds no opening
  bracket. *)
Variable matchAt : string -> option nat.
Hypothesis matchAt_tick :
forall c s n, matchAt (String c s) = Some n -> c = "`"%char.
Hypothesis matchAt_before_bracket :
forall p rest n, matchAt (p +:+ String "[" rest) = Some n -> n <= String.length p.

Lemma removeMatches_keeps (a rest : string) :
Str.all notTick a = true ->
removeMatches matchAt 0 (a +:+ rest) = a +:+ removeMatches matchAt 0 rest.
Proof.
induction a as [|c a IH]; intros Ha; [now rewrite !append_nil_l|].
simpl in Ha. apply andb_true_iff in Ha as [Hc Ha].
rewrite !append_cons. cbn [removeMatches].
destruct (matchAt (String c (a +:+ rest))) as [n|] eqn:E.
- apply matchAt_tick in E. subst c. discriminate.
- now rewrite (IH Ha).
Qed.

Lemma removeMatches_before (p rest : string) :
forall skip,
  skip <= String.length p ->
  Str.all notBracket p = true ->
  exists p',
    removeMatches matchAt skip (p +:+ String "[" rest)
    = p' +:+ removeMatches matchAt 0 (String "[" rest)
    /\ Str.all notBracket p' = true.
Proof.
induction p as [|c p IH]; intros skip Hskip Hp.
- exists "". simpl in Hskip. replace skip with 0 by lia.
  now rewrite !append_nil_l.
- simpl in Hp. apply andb_true_iff in Hp as [Hc Hp].
  simpl in Hskip. rewrite append_cons. cbn [removeMatches].
  destruct skip as [|k].
  + destruct (matchAt (String c (p +:+ String "[" rest))) as [[|k]|] eqn:E.
    * destruct (IH 0 ltac:(lia) Hp) as (p' & E' & Hp').
      exists (String c p'). rewrite E', append_cons. simpl. now rewrite Hc, Hp'.
    * rewrite <- append_cons in E. apply matchAt_before_bracket in E.
      simpl in E. apply (IH k); [lia|exact Hp].
    * destruct (IH 0 ltac:(lia) Hp) as (p' & E' & Hp').
      exists (String c p'). rewrite E', append_cons. simpl. now rewrite Hc, Hp'.
  + apply (IH k); [lia|exact Hp].
Qed.

Lemma removeMatches_around (pre body post : string) :
Str.all notBracket pre = true ->
Str.all notBracket post = true ->
Str.all notTick body = true ->
exists pre' post',
  removeMatches matchAt 0 (pre +:+ String "[" (body +:+ String "]" post))
  = pre' +:+ String "[" (body +:+ String "]" post')
  /\ Str.all notBracket pre' = true
  /\ Str.all notBracket post' = true.
Proof.
intros Hpre Hpost Hbody.
destruct (removeMatches_before pre (body +:+ String "]" post) 0 ltac:(lia) Hpre)
  as (pre' & E & Hpre').
exists pre', (removeMatches matchAt 0 post). rewrite E.
split; [|split; [exact Hpre'|now apply removeMatches_all]].
f_equal.
rewrite (bracketed_app body post), (bracketed_app body (removeMatches matchAt 0 post)).
apply removeMatches_keeps.
simpl. rewrite all_app, Hbody. reflexivity.
Qed.

End Fences.

Lemma fenceAt_tick (c : ascii) (s : string) (n : nat) :
  fenceAt (String c s) = Some n -> c = "`"%char.
Proof.
  unfold fenceAt. cbn [Str.stripPrefix].
  destruct (Ascii.eqb_spec "`" c) as [<-|]; [now intros|discriminate].
Qed.

Lemma jsonFenceAt_tick (c : ascii) (s : string) (n : nat) :
  jsonFenceAt (String c s) = Some n -> c = "`"%char.
Proof.
  unfold jsonFenceAt. cbn [stripPrefixCI].
  destruct (Ascii.eqb_spec "`" (toLower c)) as [E|]; [|discriminate].
  intros _. revert E. destruct c as [[] [] [] [] [] [] [] []]; vm_compute; congruence.
Qed.

Lemma optionalNewline_before_bracket (p rest : string) :
  optionalNewline (p +:+ String "[" rest) <= String.length p.
Proof.
  destruct p as [|c p]; [now rewrite append_nil_l|].
  rewrite append_cons. unfold optionalNewline. simpl.
  repeat match goal with |- context [match ?b with _ => _ end] => destruct b end; lia.
Qed.

Lemma stripPrefix_before_bracket (pat : string) :
  forall p rest r,
    Str.all notBracket pat = true ->
    Str.stripPrefix pat (p +:+ String "[" rest) = Some r ->
    exists p', r = p' +:+ String "[" rest
               /\ String.length p = String.length pat + String.length p'.
Proof.
  induction pat as [|a pat IH]; intros p rest r Hpat H.
  - simpl in H. injection H as <-. now exists p.
  - simpl in Hpat. apply andb_true_iff in Hpat as [Ha Hpat].
    destruct p as [|c p].
    + rewrite append_nil_l in H. simpl in H.
      destruct (Ascii.eqb_spec a "[") as [->|_]; [discriminate Ha|discriminate H].
    + rewrite append_cons in H. simpl in H.
      destruct (Ascii.eqb a c); [|discriminate].
      destruct (IH p rest r Hpat H) as (p' & -> & Hlen).
      exists p'. split; [reflexivity|]. simpl. lia.
Qed.

Lemma stripPrefixCI_before_bracket (pat : string) :
  forall p rest r,
    Str.all notBracket pat = true ->
    stripPrefixCI pat (p +:+ String "[" rest) = Some r ->
    exists p', r = p' +:+ String "[" rest
               /\ String.length p = String.length pat + String.length p'.
Proof.
  induction pat as [|a pat IH]; intros p rest r Hpat H.
  - simpl in H. injection H as <-. now exists p.
  - simpl in Hpat. apply andb_true_iff in Hpat as [Ha Hpat].
    destruct p as [|c p].
    + rewrite append_nil_l in H. simpl in H.
      change (toLower "[") with "["%char in H.
      destruct (Ascii.eqb_spec a "[") as [->|_]; [discriminate Ha|discriminate H].
    + rewrite append_cons in H. simpl in H.
      destruct (Ascii.eqb a (toLower c)); [|discriminate].
      destruct (IH p rest r Hpat H) as (p' & -> & Hlen).
      exists p'. split; [reflexivity|]. simpl. lia.
Qed.

Lemma fenceAt_before_bracket (p rest : string) (n : nat) :
  fenceAt (p +:+ String "[" rest) = Some n -> n <= String.length p.
Proof.
  unfold fenceAt.
  destruct (Str.stripPrefix "```" (p +:+ String "[" rest)) as [r|] eqn:E;
    [|discriminate].
  destruct (stripPrefix_before_bracket "```" p rest r eq_refl E) as (p' & -> & Hlen).
  intros [= <-]. pose proof (optionalNewline_before_bracket p' rest).
  rewrite Hlen. simpl String.length. lia.
Qed.

Lemma jsonFenceAt_before_bracket (p rest : string) (n : nat) :
  jsonFenceAt (p +:+ String "[" rest) = Some n -> n <= String.length p.
Proof.
  unfold jsonFenceAt.
  destruct (stripPrefixCI "```json" (p +:+ String "[" rest)) as [r|] eqn:E;
    [|discriminate].
  destruct (stripPrefixCI_before_bracket "```json" p rest r eq_refl E) as (p' & -> & Hlen).
  intros [= <-]. pose proof (optionalNewline_before_bracket p' rest).
  rewrite Hlen. simpl String.length. lia.
Qed.

Lemma notBracket_code (a : ascii) :
  Str.code a <> 91 -> Str.code a <> 93 -> notBracket a = true.
Proof.
  intros H1 H2. unfold notBracket.
  destruct (Ascii.eqb_spec a "[") as [->|_]; [now elim H1|].
  destruct (Ascii.eqb_spec a "]") as [->|_]; [now elim H2|reflexivity].
Qed.

Lemma ws1_notBracket (a : ascii) : Ws.ws1 a = true -> notBracket a = true.
Proof.
  unfold Ws.ws1, Str.between. intros H.
  rewrite ?orb_true_iff, ?andb_true_iff, ?Nat.eqb_eq, ?Nat.leb_le in H.
  apply notBracket_code; lia.
Qed.

Lemma ws2_notBracket (a b : ascii) :
  Ws.ws2 a b = true -> notBracket a = true /\ notBracket b = true.
Proof.
  unfold Ws.ws2. intros H. rewrite andb_true_iff, !Nat.eqb_eq in H.
  split; apply notBracket_code; lia.
Qed.

Lemma ws3_notBracket (a b c : ascii) :
  Ws.ws3 a b c = true ->
  notBracket a = true /\ notBracket b = true /\ notBracket c = true.
Proof.
  unfold Ws.ws3, Str.between. cbv zeta. intros H.
  repeat first [ rewrite orb_true_iff in H | rewrite andb_true_iff in H
               | rewrite Nat.eqb_eq in H | rewrite Nat.leb_le in H ].
  repeat split; apply notBracket_code; lia.
Qed.

(** trimStart drops a prefix that holds no bracket. *)
Lemma trimStart_split_le (n : nat) :
  forall s, String.length s <= n ->
    exists p, s = p +:+ Ws.trimStart s /\ Str.all notBracket p = true.
Proof.
  induction n as [|n IH]; intros s Hlen.
  - destruct s; [|simpl in Hlen; lia]. now exists "".
  - destruct s as [|a r1]; [now exists ""|].
    simpl in Hlen. cbn [Ws.trimStart].
    destruct (Ws.ws1 a) eqn:E1.
    { destruct (IH r1 ltac:(lia)) as (p & Hp & Hall).
      exists (String a p). rewrite append_cons, <- Hp. simpl.
      now rewrite (ws1_notBracket a E1), Hall. }
    destruct r1 as [|b r2]; [now exists ""|].
    simpl in Hlen.
    destruct (Ws.ws2 a b) eqn:E2.
    { destruct (IH r2 ltac:(lia)) as (p & Hp & Hall).
      destruct (ws2_notBracket a b E2) as [Ha Hb].
      exists (String a (String b p)). rewrite !append_cons, <- Hp. simpl.
      now rewrite Ha, Hb, Hall. }
    destruct r2 as [|c r3]; [now exists ""|].
    simpl in Hlen.
    destruct (Ws.ws3 a b c) eqn:E3; [|now exists ""].
    destruct (IH r3 ltac:(lia)) as (p & Hp & Hall).
    destruct (ws3_notBracket a b c E3) as (Ha & Hb & Hc).
    exists (String a (String b (String c p))). rewrite !append_cons, <- Hp. simpl.
    now rewrite Ha, Hb, Hc, Hall.
Qed.

Lemma trimStart_split (s : string) :
  exists p, s = p +:+ Ws.trimStart s /\ Str.all notBracket p = true.
Proof. apply (trimStart_split_le (String.length s)). lia. Qed.

Lemma trimStart_empty_all (s : string) :
  Ws.trimStart s = "" -> Str.all notBracket s = true.
Proof.
  intros H. destruct (trimStart_split s) as (p & Hp & Hall).
  rewrite H, append_nil_r_s in Hp. now subst p.
Qed.

Lemma notBracket_cases (c : ascii) :
  notBracket c = true -> Ascii.eqb c "[" = false /\ Ascii.eqb c "]" = false.
Proof.
  unfold notBracket. intros H. apply negb_true_iff, orb_false_iff in H. exact H.
Qed.

Lemma uptoLastBracket_none (s : string) :
  Str.all notBracket s = true -> uptoLastBracket s = None.
Proof.
  induction s as [|c s IH]; [reflexivity|]. simpl.
  intros H. apply andb_true_iff in H as [Hc Hs].
  rewrite (IH Hs). now destruct (notBracket_cases c Hc) as [_ ->].
Qed.

Lemma matchJsonArray_skip (p s : string) :
  Str.all notBracket p = true -> matchJsonArray (p +:+ s) = matchJsonArray s.
Proof.
  induction p as [|c p IH]; intros Hp; [now rewrite append_nil_l|].
  simpl in Hp. apply andb_true_iff in Hp as [Hc Hp].
  rewrite append_cons. cbn [matchJsonArray].
  destruct (notBracket_cases c Hc) as [-> _]. auto.
Qed.

Lemma matchJsonArray_none (s : string) :
  Str.all notBracket s = true -> matchJsonArray s = None.
Proof.
  intros H. rewrite <- (append_nil_r_s s). now rewrite matchJsonArray_skip.
Qed.

Lemma uptoLastBracket_trimEnd (s : string) :
  uptoLastBracket (Ws.trimEnd s) = uptoLastBracket s.
Proof.
  induction s as [|c s IH]; [reflexivity|].
  cbn [Ws.trimEnd]. destruct (Str.isEmpty (Ws.trimStart (String c s))) eqn:E.
  - apply isEmpty_true in E. symmetry.
    apply uptoLastBracket_none, trimStart_empty_all, E.
  - cbn [uptoLastBracket]. now rewrite IH.
Qed.

Lemma matchJsonArray_trimEnd (s : string) :
  matchJsonArray (Ws.trimEnd s) = matchJsonArray s.
Proof.
  induction s as [|c s IH]; [reflexivity|].
  cbn [Ws.trimEnd]. destruct (Str.isEmpty (Ws.trimStart (String c s))) eqn:E.
  - apply isEmpty_true in E. symmetry.
    apply matchJsonArray_none, trimStart_empty_all, E.
  - cbn [matchJsonArray]. now rewrite uptoLastBracket_trimEnd, IH.
Qed.

(** Trimming does not change which array the pattern finds. *)
Lemma matchJsonArray_trim (s : string) :
  matchJsonArray (Ws.trim s) = matchJsonArray s.
Proof.
  unfold Ws.trim. rewrite matchJsonArray_trimEnd.
  destruct (trimStart_split s) as (p & Hp & Hall).
  rewrite Hp at 2. now rewrite matchJsonArray_skip.
Qed.

Lemma uptoLastBracket_body (body post : string) :
  Str.all notBracket post = true ->
  uptoLastBracket (body +:+ String "]" post) = Some (body +:+ "]").
Proof.
  intros Hpost. induction body as [|c body IH].
  - rewrite !append_nil_l. cbn [uptoLastBracket].
    now rewrite (uptoLastBracket_none post Hpost).
  - rewrite !append_cons. cbn [uptoLastBracket]. now rewrite IH.
Qed.

Lemma matchJsonArray_found (pre body post : string) :
  Str.all notBracket pre = true ->
  Str.all notBracket post = true ->
  matchJsonArray (pre +:+ String "[" (body +:+ String "]" post))
  = Some (String "[" (body +:+ "]")).
Proof.
  intros Hpre Hpost. rewrite (matchJsonArray_skip pre _ Hpre).
  cbn [matchJsonArray]. rewrite Ascii.eqb_refl.
  now rewrite (uptoLastBracket_body body post Hpost).
Qed.

(** X19: when the reply of the model holds an array [[ body ]] whose body
    has no backtick, and what comes before and after it has no square
    bracket, the text handed to JSON.parse is the array alone: prose, code
    fences and blank space around it are all dropped, whatever they are. *)
Theorem cleanResponse_extracts (pre body post : string) :
  Str.all notBracket pre = true ->
  Str.all notBracket post = true ->
  Str.all notTick body = true ->
  cleanResponse (pre +:+ "[" +:+ body +:+ "]" +:+ post) = "[" +:+ body +:+ "]".
Proof.
  intros Hpre Hpost Hbody.
  change (pre +:+ "[" +:+ body +:+ "]" +:+ post)
    with (pre +:+ String "[" (body +:+ String "]" post)).
  change ("[" +:+ body +:+ "]") with (String "[" (body +:+ "]")).
  unfold cleanResponse.
  destruct (removeMatches_around jsonFenceAt jsonFenceAt_tick jsonFenceAt_before_bracket
              pre body post Hpre Hpost Hbody) as (pre1 & post1 & -> & Hpre1 & Hpost1).
  destruct (removeMatches_around fenceAt fenceAt_tick fenceAt_before_bracket
              pre1 body post1 Hpre1 Hpost1 Hbody) as (pre2 & post2 & -> & Hpre2 & Hpost2).
  cbv zeta. rewrite matchJsonArray_trim.
  now rewrite (matchJsonArray_found pre2 body post2 Hpre2 Hpost2).
Qed.

Lemma cleanResponse_extracts_witness :
  cleanResponse (replyPreamble +:+ "[" +:+ "{}, {}" +:+ "]" +:+ replyPostamble)
  = "[" +:+ "{}, {}" +:+ "]".
Proof.
  apply (cleanResponse_extracts replyPreamble "{}, {}" replyPostamble); reflexivity.
Defined.
